(** * deep-research: the research scheduler, the audit engine and the text chunker

    A shallow embedding of
      - [src/deep-research.ts]  (generateSerpQueries, processSerpResult,
        generateContactsFromLearnings, deepResearch),
      - [src/auditing.ts]       (getRandomSample, verifyContact, auditContacts),
      - the text chunker of [src/ai/text-splitter.ts],
    together with the properties the design document states about them.

    Conventions of the embedding.
      - A JavaScript [number] that the code uses as a count (breadth, depth,
        sampleSize, chunkSize, ...) is an integer [Z].
      - A JavaScript string is a [string].  [String.prototype.toLowerCase]
        belongs to the runtime and follows the Unicode case mappings: it is
        one of the collaborators, and the examples, whose strings are ASCII,
        use the folding of the letters A-Z.
      - An [async] function returns a [Result]: [Ok v] for a fulfilled promise,
        [Err e] for a rejected one.  [try { await f() } catch] is a match on
        the result of [f].
      - The external collaborators (the language model behind [generateObject],
        the Firecrawl search service, [Math.random], the process environment)
        are parameters of the development. *)

From Stdlib Require Import ZArith List String Ascii Bool Lia Permutation.
From Stdlib Require DecimalString.
Import ListNotations.

Set Implicit Arguments.

(* ================================================================== *)
(** * JavaScript values and library functions used by the code          *)
(* ================================================================== *)

(** The value carried by a rejected promise: its [message]. *)
Definition JsError := string.

Inductive Result (A : Type) : Type :=
| Ok (a : A)
| Err (e : JsError).

Arguments Ok {A} a.
Arguments Err {A} e.

Definition bind {A B : Type} (r : Result A) (k : A -> Result B) : Result B :=
  match r with
  | Ok a => k a
  | Err e => Err e
  end.

Notation "'await' x <- r ;; k" := (bind r (fun x => k))
  (at level 61, x name, r at next level, right associativity).

(** [try { return await r } catch (e) { return h }] *)
Definition tryCatch {A : Type} (r : Result A) (h : JsError -> Result A) : Result A :=
  match r with
  | Ok a => Ok a
  | Err e => h e
  end.

(** A string is truthy when it is not empty. *)
Definition truthy (s : string) : bool :=
  match s with
  | EmptyString => false
  | String _ _ => true
  end.

(** [a || b] on strings. *)
Definition orElse (a b : string) : string := if truthy a then a else b.

(** [String(x)] of an optional string: ["undefined"] when absent. *)
Definition showOpt (o : option string) : string :=
  match o with
  | Some s => s
  | None => "undefined"
  end.

(** [arr.slice(0, e)]: a negative [e] counts from the end. *)
Definition slice0 {A : Type} (l : list A) (e : Z) : list A :=
  firstn (Z.to_nat (if (e <? 0)%Z then Z.of_nat (List.length l) + e else e)%Z) l.

(** lodash [compact] on optional strings: drops [undefined] and [""]. *)
Fixpoint compact (l : list (option string)) : list string :=
  match l with
  | [] => []
  | Some s :: t => if truthy s then s :: compact t else compact t
  | None :: t => compact t
  end.

Definition mem (x : string) (l : list string) : bool :=
  existsb (String.eqb x) l.

(** [[...new Set(l)]]: a [Set] keeps the first occurrence of every value, in
    insertion order.  [seen] is the content of the set so far. *)
Fixpoint setInsertAll (seen l : list string) : list string :=
  match l with
  | [] => seen
  | x :: t => if mem x seen then setInsertAll seen t
              else setInsertAll (seen ++ [x]) t
  end.

Definition dedupe (l : list string) : list string := setInsertAll [] l.

(** [Math.ceil(n / 2)] on an integer. *)
Definition ceilHalf (n : Z) : Z := ((n + 1) / 2)%Z.

Definition lowerAscii (c : ascii) : ascii :=
  let n := nat_of_ascii c in
  if (65 <=? n)%nat && (n <=? 90)%nat then ascii_of_nat (n + 32) else c.

(** What [toLowerCase] does to a string of ASCII characters. *)
Fixpoint asciiLowerCase (s : string) : string :=
  match s with
  | EmptyString => EmptyString
  | String c t => String (lowerAscii c) (asciiLowerCase t)
  end.

(** [hay.includes(needle)] *)
Fixpoint includes (hay needle : string) : bool :=
  if String.prefix needle hay then true
  else match hay with
       | EmptyString => false
       | String _ t => includes t needle
       end.

Definition isSpace (c : ascii) : bool :=
  let n := nat_of_ascii c in
  (n =? 32)%nat || ((9 <=? n)%nat && (n <=? 13)%nat).

Fixpoint trimStartL (l : list ascii) : list ascii :=
  match l with
  | [] => []
  | c :: t => if isSpace c then trimStartL t else l
  end.

(** [s.trim()] *)
Definition trim (s : string) : string :=
  string_of_list_ascii
    (rev (trimStartL (rev (trimStartL (list_ascii_of_string s))))).

(** [parts.join(sep)] *)
Fixpoint join (sep : string) (parts : list string) : string :=
  match parts with
  | [] => EmptyString
  | [p] => p
  | p :: t => (p ++ sep ++ join sep t)%string
  end.

Definition nl : string := String (ascii_of_nat 10) EmptyString.

(* ================================================================== *)
(** * The research scheduler ([src/deep-research.ts])                   *)
(* ================================================================== *)

Record SerpQuery := {
  sq_query : string;
  sq_researchGoal : string
}.

(** One item of [SearchResponse.data]. *)
Record SearchItem := {
  si_url : option string;
  si_markdown : option string
}.

Definition SearchResponse := list SearchItem.

(** The object [processSerpResult] returns. *)
Record LearningBatch := {
  lb_learnings : list string;
  lb_followUpQuestions : list string
}.

Record ResearchResult := {
  rr_learnings : list string;
  rr_visitedUrls : list string
}.

Definition emptyResult : ResearchResult :=
  {| rr_learnings := []; rr_visitedUrls := [] |}.

(** The constant returned when [BYPASS_DEEP_RESEARCH] is set. *)
Definition mockResult : ResearchResult :=
  {| rr_learnings :=
       [ "Mock learning 1: Found several NY private schools looking for CS/AI leaders";
         "Mock learning 2: Riverdale Country School posted a Director of Technology position";
         "Mock learning 3: Hackley School received grant funding for AI programs";
         "Mock learning 4: Trinity School is expanding their computer science department" ]%string;
     rr_visitedUrls :=
       [ "https://riverdale.org/careers";
         "https://hackleyschool.edu/employment";
         "https://trinityschoolnyc.org/about/careers" ]%string |}.

(** [Promise.all]: fulfilled with all the values when every promise is
    fulfilled, rejected as soon as one is.  [None] stands for a promise that
    was not settled within the fuel of the model. *)
Fixpoint promiseAll {A : Type} (ps : list (option (Result A)))
  : option (Result (list A)) :=
  match ps with
  | [] => Some (Ok [])
  | None :: _ => None
  | Some r :: rest =>
      match promiseAll rest with
      | None => None
      | Some rs =>
          Some (match r with
                | Err e => Err e
                | Ok a => match rs with
                          | Ok l => Ok (a :: l)
                          | Err e => Err e
                          end
                end)
      end
  end.

(** The template string of [nextQuery], trimmed. *)
Definition nextQuery (goal : string) (followUps : list string) : string :=
  trim (nl ++ "            Previous research goal: " ++ goal ++ nl
        ++ "            Follow-up research directions: "
        ++ join "" (map (fun q => nl ++ q) followUps) ++ nl
        ++ "          ")%string.

(* ================================================================== *)
(** * Records of the audit engine ([src/types.ts])                      *)
(* ================================================================== *)

(** [Contact], as [src/types.ts] declares it; [number] and [department] are
    optional.  The field [source] has the single value ['deep-research'] and
    is left out. *)
Record Contact := {
  name : string;
  email : string;
  company : string;
  tags : list string;
  position : string;
  city : string;
  stateProvince : string;
  country : string;
  number : option string;
  timeZone : string;
  department : option string;
  priority : Z;
  signal : string;
  signalLevel : string;
  compliment : string;
  industry : string;
  links : string
}.

Record Correction := {
  corr_email : string;
  corr_field : string;
  corr_before : string;
  corr_after : string;
  corr_reason : string
}.

Record AuditingCriteria := {
  sampleSize : Z;
  verificationDepth : Z
}.

Record AuditResult := {
  verifiedContacts : list Contact;
  corrections : list Correction
}.

(* ================================================================== *)
(** * The external collaborators                                        *)
(* ================================================================== *)

Record Collaborators := {
  (** [process.env.BYPASS_DEEP_RESEARCH === 'true'] *)
  bypass : bool;
  (** The [generateObject] call of [generateSerpQueries], as a function of
      what its prompt is built from: the query, the learnings so far and the
      number of queries asked for.  It answers with [res.object.queries]. *)
  llmSerpQueries : string -> list string -> Z -> Result (list SerpQuery);
  (** [firecrawl.search(query, {timeout: 15000, limit: 5, ...})] *)
  firecrawlSearch : string -> Result SearchResponse;
  (** The [generateObject] call of [processSerpResult], as a function of the
      query, the trimmed contents and the number of follow-up questions. *)
  llmLearnings : string -> list string -> Z -> Result LearningBatch;
  (** [trimPrompt(content, size)] of [src/ai/providers.ts]; it depends on the
      tokenizer, which is external. *)
  trimPrompt : string -> Z -> string;
  (** The [generateObject] call of [generateContactsFromLearnings], as a
      function of the learnings and the contact hierarchy. *)
  llmContacts : list string -> list string -> Result (list Contact);
  (** What [generateContactsFromLearnings] answers in bypass mode: the content
      of [test/mock-output.json], or the built-in sample contact. *)
  bypassContacts : list Contact;
  (** [[...array].sort(() => 0.5 - Math.random())].  The facts about sampling
      assume that the engine's sort rearranges the array, whatever the
      comparator answers. *)
  shuffle : forall T : Type, list T -> list T;
  (** [String.prototype.toLowerCase], of the JavaScript runtime. *)
  toLowerCase : string -> string
}.

(* ================================================================== *)
(** * The research scheduler: [deepResearch]                            *)
(* ================================================================== *)

Section Research.

Variable w : Collaborators.

Definition generateSerpQueries (query : string) (numQueries : Z)
           (learnings : list string) : Result (list SerpQuery) :=
  await queries <- llmSerpQueries w query learnings numQueries ;;
  Ok (slice0 queries numQueries).

Definition processSerpResult (query : string) (result : SearchResponse)
           (numFollowUpQuestions : Z) : Result LearningBatch :=
  let contents :=
    map (fun content => trimPrompt w content 25000)
        (compact (map si_markdown result)) in
  llmLearnings w query contents numFollowUpQuestions.

Definition mergeResults (results : list ResearchResult) : ResearchResult :=
  {| rr_learnings := dedupe (flat_map rr_learnings results);
     rr_visitedUrls := dedupe (flat_map rr_visitedUrls results) |}.

(** The function passed to [limit(...)] for one SERP query.  [recurse] is
    the recursive call [deepResearch({...})].  The two awaited calls are
    inside the [try]; the recursive call is returned without [await], so
    its promise is handed to [Promise.all] as it is and a rejection of it
    does not reach the [catch]. *)
Definition researchBranch
           (recurse : string -> Z -> Z -> list string -> list string ->
                      option (Result ResearchResult))
           (breadth depth : Z) (learnings visitedUrls : list string)
           (serpQuery : SerpQuery) : option (Result ResearchResult) :=
  match firecrawlSearch w (sq_query serpQuery) with
  | Err _ => Some (Ok emptyResult)
  | Ok result =>
      let newUrls := compact (map si_url result) in
      let newBreadth := ceilHalf breadth in
      let newDepth := (depth - 1)%Z in
      match processSerpResult (sq_query serpQuery) result newBreadth with
      | Err _ => Some (Ok emptyResult)
      | Ok newLearnings =>
          let allLearnings := learnings ++ lb_learnings newLearnings in
          let allUrls := visitedUrls ++ newUrls in
          if (newDepth >? 0)%Z then
            recurse (nextQuery (sq_researchGoal serpQuery)
                               (lb_followUpQuestions newLearnings))
                    newBreadth newDepth allLearnings allUrls
          else
            Some (Ok {| rr_learnings := allLearnings;
                        rr_visitedUrls := allUrls |})
      end
  end.

(** [deepResearch], with [fuel] bounding the nesting of recursive calls.
    The [onProgress] callback only reports and is left out. *)
Fixpoint deepResearch_fuel (fuel : nat) (query : string) (breadth depth : Z)
         (learnings visitedUrls : list string)
  : option (Result ResearchResult) :=
  if bypass w then Some (Ok mockResult)
  else
    match generateSerpQueries query breadth learnings with
    | Err e => Some (Err e)
    | Ok serpQueries =>
        let recurse :=
          match fuel with
          | O => fun _ _ _ _ _ => None
          | S fuel' => deepResearch_fuel fuel'
          end in
        match promiseAll
                (map (researchBranch recurse breadth depth learnings visitedUrls)
                     serpQueries) with
        | None => None
        | Some (Err e) => Some (Err e)
        | Some (Ok results) => Some (Ok (mergeResults results))
        end
    end.

(** A call at depth [d] nests at most [d - 1] recursive calls, so
    [Z.to_nat depth] is fuel enough (see [deepResearch_fuel_enough]); the
    last branch is never taken. *)
Definition deepResearch (query : string) (breadth depth : Z)
           (learnings visitedUrls : list string) : Result ResearchResult :=
  match deepResearch_fuel (Z.to_nat depth) query breadth depth
                          learnings visitedUrls with
  | Some r => r
  | None => Err "unsettled"%string
  end.

(** The function dispatched for one SERP query by a call that settles: its
    recursive call is [deepResearch] (see [deepResearch_unfold]). *)
Definition dispatchedBranch (breadth depth : Z)
           (learnings visitedUrls : list string) (serpQuery : SerpQuery)
  : option (Result ResearchResult) :=
  researchBranch
    (fun q b d l v => Some (deepResearch q b d l v))
    breadth depth learnings visitedUrls serpQuery.

(** [generateContactsFromLearnings] *)
Definition generateContactsFromLearnings (learnings contactHierarchy : list string)
  : Result (list Contact) :=
  if bypass w then Ok (bypassContacts w)
  else match learnings with
       | [] => Ok []
       | _ :: _ => llmContacts w learnings contactHierarchy
       end.

End Research.

(* ================================================================== *)
(** * The audit engine ([getRandomSample], [verifyContact],
      [auditContacts])                                                  *)
(* ================================================================== *)

(** The fields [verifyContact] compares, in the order of its [fields] array. *)
Inductive ContactField :=
| F_name | F_email | F_company | F_position | F_department
| F_city | F_stateProvince | F_country | F_industry | F_tags.

Definition fields : list ContactField :=
  [F_name; F_email; F_company; F_position; F_department;
   F_city; F_stateProvince; F_country; F_industry; F_tags].

Definition fieldName (f : ContactField) : string :=
  match f with
  | F_name => "name" | F_email => "email" | F_company => "company"
  | F_position => "position" | F_department => "department"
  | F_city => "city" | F_stateProvince => "stateProvince"
  | F_country => "country" | F_industry => "industry" | F_tags => "tags"
  end.

(** [String(contact[field] || '')]: an absent field gives [""], an array is
    printed with its elements joined by commas. *)
Definition fieldValue (c : Contact) (f : ContactField) : string :=
  match f with
  | F_name => name c | F_email => email c | F_company => company c
  | F_position => position c
  | F_department => match department c with Some d => d | None => "" end
  | F_city => city c | F_stateProvince => stateProvince c
  | F_country => country c | F_industry => industry c
  | F_tags => join "," (tags c)
  end.

(** The predicate given to [verifiedContacts.find]. *)
Definition isMatch (w : Collaborators) (contact c : Contact) : bool :=
  includes (toLowerCase w (name c)) (toLowerCase w (name contact))
  || String.eqb (toLowerCase w (email c)) (toLowerCase w (email contact))
  || (String.eqb (toLowerCase w (company c)) (toLowerCase w (company contact))
      && includes (toLowerCase w (position c))
                  (toLowerCase w (position contact))).

(** [verifiedContacts.find(...) || verifiedContacts[0]] *)
Definition findMatch (w : Collaborators) (contact : Contact)
           (verifiedContacts : list Contact) : option Contact :=
  match find (isMatch w contact) verifiedContacts with
  | Some c => Some c
  | None => hd_error verifiedContacts
  end.

(** The loop over [fields]. *)
Definition compareFields (contact verifiedContact : Contact) : list Correction :=
  flat_map
    (fun field =>
       let originalValue := fieldValue contact field in
       let verifiedValue := fieldValue verifiedContact field in
       if truthy originalValue && truthy verifiedValue
          && negb (String.eqb originalValue verifiedValue)
       then [ {| corr_email := email contact;
                 corr_field := fieldName field;
                 corr_before := originalValue;
                 corr_after := verifiedValue;
                 corr_reason := "Verification research found updated information" |} ]
       else [])
    fields.

Definition optOr {A : Type} (a b : option A) : option A :=
  match a with
  | Some _ => a
  | None => b
  end.

(** [{ ...contact, ...verifiedContact,
       email: verifiedContact.email || contact.email }]:
    every field the verified contact has overwrites the original's; an optional
    field it lacks keeps the original's value. *)
Definition mergeContact (contact verifiedContact : Contact) : Contact :=
  {| name := name verifiedContact;
     email := orElse (email verifiedContact) (email contact);
     company := company verifiedContact;
     tags := tags verifiedContact;
     position := position verifiedContact;
     city := city verifiedContact;
     stateProvince := stateProvince verifiedContact;
     country := country verifiedContact;
     number := optOr (number verifiedContact) (number contact);
     timeZone := timeZone verifiedContact;
     department := optOr (department verifiedContact) (department contact);
     priority := priority verifiedContact;
     signal := signal verifiedContact;
     signalLevel := signalLevel verifiedContact;
     compliment := compliment verifiedContact;
     industry := industry verifiedContact;
     links := links verifiedContact |}.

Definition verificationQuery (contact : Contact) (originalQuery : string) : string :=
  (nl ++ "Verify information for " ++ name contact ++ " at " ++ company contact
   ++ " in " ++ position contact ++ " role, with " ++ email contact ++ " and "
   ++ showOpt (number contact) ++ "." ++ nl
   ++ "Search for: " ++ name contact ++ " " ++ company contact ++ " "
   ++ position contact ++ " " ++ email contact ++ " " ++ showOpt (number contact)
   ++ "," ++ nl
   ++ "Confirm: email, position, department, location, recent activity" ++ nl
   ++ "Context: " ++ originalQuery ++ nl
   ++ "Strict Rules:" ++ nl
   ++ "  - Back everything you say with actual sources." ++ nl
   ++ "  - There are heavy penalties for information that are made up/don't come from an actual source" ++ nl
   ++ "  - If you are not sure about the factual correctness of a information, leave it blank. "
   ++ nl ++ nl)%string.

(** A [Map<string, Contact>]: the entries in insertion order.  [set] on a key
    that is present replaces its value in place; on a new key it appends. *)
Definition JsMap := list (string * Contact).

Fixpoint mapSet (k : string) (v : Contact) (m : JsMap) : JsMap :=
  match m with
  | [] => [(k, v)]
  | (k', v') :: rest =>
      if String.eqb k' k then (k', v) :: rest
      else (k', v') :: mapSet k v rest
  end.

Fixpoint mapGet (k : string) (m : JsMap) : option Contact :=
  match m with
  | [] => None
  | (k', v') :: rest => if String.eqb k' k then Some v' else mapGet k rest
  end.

Definition mapValues (m : JsMap) : list Contact := map snd m.

(** The entry [contact.email -> contact]. *)
Definition mapEntry (c : Contact) : string * Contact := (email c, c).

Section Audit.

Variable w : Collaborators.

(** [getRandomSample] *)
Definition getRandomSample {T : Type} (array : list T) (size : Z) : list T :=
  if (Z.of_nat (List.length array) <=? size)%Z then array
  else slice0 (shuffle w array) size.

(** [verifyContact]: the whole body after the first [log] is inside
    [try { ... } catch]; both calls are awaited. *)
Definition verifyContact (contact : Contact) (originalQuery : string)
           (depth : Z) : Result (Contact * list Correction) :=
  tryCatch
    (await research <-
       deepResearch w (verificationQuery contact originalQuery) 2 depth [] [] ;;
     await candidates <-
       generateContactsFromLearnings w (rr_learnings research)
                                     [position contact] ;;
     match findMatch w contact candidates with
     | None => Ok (contact, [])
     | Some verifiedContact =>
         Ok (mergeContact contact verifiedContact,
             compareFields contact verifiedContact)
     end)
    (fun _ => Ok (contact, [])).

(** The state of the loop of [auditContacts]: [verifiedContactsMap] and
    [allCorrections]. *)
Definition AuditState := (JsMap * list Correction)%type.

(** One iteration of [for (const contact of sampleContacts)]. *)
Definition auditStep (originalQuery : string) (criteria : AuditingCriteria)
           (st : AuditState) (contact : Contact) : AuditState :=
  match verifyContact contact originalQuery (verificationDepth criteria) with
  | Ok (verifiedContact, cs) =>
      (mapSet (email contact) verifiedContact (fst st), snd st ++ cs)
  | Err _ => st
  end.

(** [contacts.forEach(contact => verifiedContactsMap.set(contact.email, contact))] *)
Definition initMap (contacts : list Contact) : JsMap :=
  fold_left (fun m contact => mapSet (email contact) contact m) contacts [].

Definition mockCorrections (contacts : list Contact) : list Correction :=
  [ {| corr_email :=
         orElse (match nth_error contacts 0 with Some c => email c | None => "" end)
                "test@example.com";
       corr_field := "position";
       corr_before := "Director";
       corr_after := "Head of Technology";
       corr_reason := "Mock verification found updated title" |};
    {| corr_email :=
         orElse (match nth_error contacts 1 with Some c => email c | None => "" end)
                "test2@example.com";
       corr_field := "department";
       corr_before := "IT";
       corr_after := "Computer Science";
       corr_reason := "Mock audit found more specific department" |} ].

(** [auditContacts] *)
Definition auditContacts (contacts : list Contact) (criteria : AuditingCriteria)
           (originalQuery : string) : Result AuditResult :=
  match contacts with
  | [] => Ok {| verifiedContacts := []; corrections := [] |}
  | _ :: _ =>
      if bypass w then
        Ok {| verifiedContacts := contacts;
              corrections := mockCorrections contacts |}
      else
        let sampleContacts := getRandomSample contacts (sampleSize criteria) in
        let final :=
          fold_left (auditStep originalQuery criteria) sampleContacts
                    (initMap contacts, []) in
        Ok {| verifiedContacts := mapValues (fst final);
              corrections := snd final |}
  end.

End Audit.

(* ================================================================== *)
(** * The matching rule as the design document words it                 *)
(* ================================================================== *)

(** Rule (1): email exact match, case-insensitive. *)
Definition ruleEmail (w : Collaborators) (contact c : Contact) : bool :=
  String.eqb (toLowerCase w (email c)) (toLowerCase w (email contact)).

(** Organization+role match, as the code tests it. *)
Definition ruleOrgRole (w : Collaborators) (contact c : Contact) : bool :=
  String.eqb (toLowerCase w (company c)) (toLowerCase w (company contact))
  && includes (toLowerCase w (position c)) (toLowerCase w (position contact)).

(** Rule (2): name substring match in either direction AND organization+role. *)
Definition ruleNameOrgRole (w : Collaborators) (contact c : Contact) : bool :=
  (includes (toLowerCase w (name c)) (toLowerCase w (name contact))
   || includes (toLowerCase w (name contact)) (toLowerCase w (name c)))
  && ruleOrgRole w contact c.

(** The selection in priority order, as the design document states it: the
    rules are tried one after the other over all the candidates, and the first
    candidate is the fallback.  This definition follows the document, not the
    code; [findMatch] is the code. *)
Definition specSelect (w : Collaborators) (contact : Contact)
           (candidates : list Contact) : option Contact :=
  match find (ruleEmail w contact) candidates with
  | Some c => Some c
  | None =>
      match find (ruleNameOrgRole w contact) candidates with
      | Some c => Some c
      | None =>
          match find (ruleOrgRole w contact) candidates with
          | Some c => Some c
          | None => hd_error candidates
          end
      end
  end.

(* ================================================================== *)
(** * The text chunker ([src/ai/text-splitter.ts])                      *)
(* ================================================================== *)

(** The message the chunker's constructor throws with, as the unit tests
    expect it; the design document calls this failure [ConfigurationError]. *)
Definition ConfigurationError : JsError :=
  "Cannot have chunkOverlap >= chunkSize"%string.

Record RecursiveCharacterTextSplitter := {
  chunkSize : Z;
  chunkOverlap : Z
}.

(** Modelled from the spec: the constructor of [RecursiveCharacterTextSplitter]
    ([src/ai/text-splitter.ts] is not among the sources; its unit tests and its
    caller [trimPrompt] are).  "[chunkOverlap < chunkSize] else fails with
    [ConfigurationError]". *)
Definition newSplitter (size overlap : Z) : Result RecursiveCharacterTextSplitter :=
  if (overlap >=? size)%Z then Err ConfigurationError
  else Ok {| chunkSize := size; chunkOverlap := overlap |}.

(** The separators of the design document, coarsest first: "paragraph break,
    line break, sentence-ending punctuation, word boundary, character". *)
Inductive Separator := Paragraph | Line | Sentence | Word | Character.

Definition separators : list Separator :=
  [Paragraph; Line; Sentence; Word; Character].

Definition lf : ascii := ascii_of_nat 10.

(** [endsUnit sep piece]: the piece read so far ends with the separator. *)
Definition endsUnit (sep : Separator) (piece : list ascii) : bool :=
  match sep, rev piece with
  | Character, _ => true
  | _, [] => false
  | Paragraph, c :: d :: _ => Ascii.eqb c lf && Ascii.eqb d lf
  | Paragraph, _ => false
  | Line, c :: _ => Ascii.eqb c lf
  | Sentence, c :: _ =>
      Ascii.eqb c "."%char || Ascii.eqb c "!"%char || Ascii.eqb c "?"%char
  | Word, c :: _ => Ascii.eqb c " "%char
  end.

(** Modelled from the spec: splitting a text at a separator.  Every unit keeps
    the separator that ends it, so that the units concatenate to the text.
    [cur] is the unit being read. *)
Fixpoint splitAfter (sep : Separator) (cur text : list ascii)
  : list (list ascii) :=
  match text with
  | [] => match cur with [] => [] | _ :: _ => [cur] end
  | c :: rest =>
      let cur' := cur ++ [c] in
      if endsUnit sep cur' then cur' :: splitAfter sep [] rest
      else splitAfter sep cur' rest
  end.

(** Modelled from the spec: "try separators in priority order ...; for any
    piece still too large, recurse with the next finer separator".  A piece is
    too large when it does not fit [size]; below the last separator the text
    is cut into characters. *)
Fixpoint splitUnits (seps : list Separator) (size : nat) (text : list ascii)
  : list (list ascii) :=
  match seps with
  | [] => splitAfter Character [] text
  | sep :: finer =>
      flat_map
        (fun piece =>
           if (List.length piece <=? size)%nat then [piece]
           else splitUnits finer size piece)
        (splitAfter sep [] text)
  end.

(** The last [k] characters. *)
Definition lastn (k : nat) (l : list ascii) : list ascii :=
  skipn (List.length l - k) l.

(** Modelled from the spec: "build output chunks by greedily packing split
    units up to [chunkSize], carrying the last [chunkOverlap] characters of
    each chunk as a prefix-context for the next chunk".  [cur] is the chunk
    being packed: a unit joins it as long as the chunk stays within
    [chunkSize]; otherwise the chunk is closed and the next one starts with
    the last [chunkOverlap] characters of it, followed by the unit. *)
Fixpoint packUnits (size overlap : nat) (cur : list ascii)
         (units : list (list ascii)) : list (list ascii) :=
  match units with
  | [] => match cur with [] => [] | _ :: _ => [cur] end
  | u :: rest =>
      if (List.length cur + List.length u <=? size)%nat
      then packUnits size overlap (cur ++ u) rest
      else
        match cur with
        | [] => packUnits size overlap u rest
        | _ :: _ => cur :: packUnits size overlap (lastn overlap cur ++ u) rest
        end
  end.

(** Modelled from the spec: [splitText].  "Empty input yields an empty
    sequence.  If [text.length <= chunkSize], return [[text]] unchanged.
    Otherwise" the text is split into units and the units are packed. *)
Definition splitText (sp : RecursiveCharacterTextSplitter) (text : string)
  : list string :=
  match text with
  | EmptyString => []
  | String _ _ =>
      if (Z.of_nat (String.length text) <=? chunkSize sp)%Z then [text]
      else
        let size := Z.to_nat (chunkSize sp) in
        let overlap := Z.to_nat (chunkOverlap sp) in
        map string_of_list_ascii
            (packUnits size overlap []
                       (splitUnits separators size (list_ascii_of_string text)))
  end.

(* ================================================================== *)
(** * Concrete collaborators and records used in the examples           *)
(* ================================================================== *)

Module Fixtures.

Open Scope string_scope.

Definition queryOne : SerpQuery :=
  {| sq_query := "query one"; sq_researchGoal := "goal one" |}.
Definition queryTwo : SerpQuery :=
  {| sq_query := "query two"; sq_researchGoal := "goal two" |}.
Definition queryThree : SerpQuery :=
  {| sq_query := "query three"; sq_researchGoal := "goal three" |}.

Definition pageA : SearchItem :=
  {| si_url := Some "https://a.example/"; si_markdown := Some "page a" |}.

Definition batchOne : LearningBatch :=
  {| lb_learnings := ["learning one"]; lb_followUpQuestions := ["what next"] |}.

(** Collaborators given by the three answers that vary in the examples; the
    learning extraction always answers [batchOne], prompts are not trimmed
    and the shuffle reverses the array.  Every string of the examples is
    ASCII, where [toLowerCase] folds the letters A-Z and nothing else. *)
Definition world (queries : string -> Result (list SerpQuery))
           (search : string -> Result SearchResponse)
           (contacts : Result (list Contact)) : Collaborators :=
  {| bypass := false;
     llmSerpQueries := fun query _ _ => queries query;
     firecrawlSearch := search;
     llmLearnings := fun _ _ _ => Ok batchOne;
     trimPrompt := fun s _ => s;
     llmContacts := fun _ _ => contacts;
     bypassContacts := [];
     shuffle := fun T l => rev l;
     toLowerCase := asciiLowerCase |}.

Definition john : Contact :=
  {| name := "John Doe";
     email := "john.doe@techcorp.com";
     company := "TechCorp";
     tags := ["AI"; "CEO"];
     position := "CEO";
     city := "San Francisco";
     stateProvince := "California";
     country := "United States";
     number := Some "(555) 123-4567";
     timeZone := "PST";
     department := Some "Executive";
     priority := 9;
     signal := "Actively hiring AI talent";
     signalLevel := "8";
     compliment := "Visionary leader in AI development";
     industry := "Technology";
     links := "https://techcorp.com" |}.

Definition jane : Contact :=
  {| name := "Jane Smith";
     email := "jane.smith@dataflow.com";
     company := "DataFlow Inc.";
     tags := ["CTO"];
     position := "CTO";
     city := "San Francisco";
     stateProvince := "California";
     country := "United States";
     number := None;
     timeZone := "PST";
     department := Some "Engineering";
     priority := 8;
     signal := "Expanding ML team";
     signalLevel := "7";
     compliment := "Expert in distributed systems";
     industry := "Technology";
     links := "https://linkedin.com/in/janesmith" |}.

(** [{ ...c, name: n, email: e, company: co, position: p }] *)
Definition identified (c : Contact) (n e co p : string) : Contact :=
  {| name := n; email := e; company := co; tags := tags c; position := p;
     city := city c; stateProvince := stateProvince c; country := country c;
     number := number c; timeZone := timeZone c; department := department c;
     priority := priority c; signal := signal c; signalLevel := signalLevel c;
     compliment := compliment c; industry := industry c; links := links c |}.

(** One query, one page: a research call that finds something. *)
Definition worldOne : Collaborators :=
  world (fun _ => Ok [queryOne]) (fun _ => Ok [pageA]) (Ok []).

(** Two sibling queries that discover the same page. *)
Definition worldSiblings : Collaborators :=
  world (fun _ => Ok [queryOne; queryTwo]) (fun _ => Ok [pageA]) (Ok []).

(** The search of the first sibling times out. *)
Definition worldTimeout : Collaborators :=
  world (fun _ => Ok [queryOne; queryTwo])
        (fun q => if String.eqb q "query one"
                  then Err "Timeout: Request took too long"
                  else Ok [pageA])
        (Ok []).

(** The language model fails when the first sibling's follow-up research
    asks it for queries. *)
Definition worldNestedFailure : Collaborators :=
  world (fun q => if String.eqb q "topic" then Ok [queryOne; queryTwo]
                  else if includes q "goal one" then Err "ModelError: quota exceeded"
                  else Ok [queryThree])
        (fun _ => Ok [pageA])
        (Ok []).

(** Verification finds John under a new email address. *)
Definition johnNewEmail : Contact :=
  identified john "John Doe" "new.email@techcorp.com" "TechCorp" "CEO".

Definition worldNewEmail : Collaborators :=
  world (fun _ => Ok [queryOne]) (fun _ => Ok [pageA]) (Ok [johnNewEmail]).

(** Verification finds John with a longer title. *)
Definition johnNewTitle : Contact :=
  identified john "John Doe" "john.doe@techcorp.com" "TechCorp"
             "Chief Executive Officer".

Definition worldNewTitle : Collaborators :=
  world (fun _ => Ok [queryOne]) (fun _ => Ok [pageA]) (Ok [johnNewTitle]).

(** The extraction of contacts fails. *)
Definition worldExtractionFails : Collaborators :=
  world (fun _ => Ok [queryOne]) (fun _ => Ok [pageA]) (Err "AI API Error").

(** Every search times out; the language model would find John with a
    longer title if it were given anything to read. *)
Definition worldSearchDown : Collaborators :=
  world (fun _ => Ok [queryOne; queryTwo])
        (fun _ => Err "Timeout: Request took too long")
        (Ok [johnNewTitle]).

(** The search of the first sibling times out; in what the second sibling
    read the language model finds John with a longer title. *)
Definition worldOneSearchDown : Collaborators :=
  world (fun _ => Ok [queryOne; queryTwo])
        (fun q => if String.eqb q "query one"
                  then Err "Timeout: Request took too long"
                  else Ok [pageA])
        (Ok [johnNewTitle]).

(** Two candidates: a namesake at another company, then the record with the
    original's email. *)
Definition namesake : Contact :=
  identified jane "John Doe Jr" "jdj@other.example" "Other Company" "Clerk".
Definition sameEmail : Contact :=
  identified john "J. D." "JOHN.DOE@TECHCORP.COM" "TechCorp" "CEO".

End Fixtures.

(* ================================================================== *)
(** * Further functions of [src/feedback.ts] and [src/deep-research.ts] *)
(* ================================================================== *)

(** [generateFeedback].  [llmQuestions] is its [generateObject] call, as a
    function of the query and of the number of questions asked for; it
    answers with [userFeedback.object.questions]. *)
Definition generateFeedback (llmQuestions : string -> Z -> Result (list string))
           (query : string) (numQuestions : Z) : Result (list string) :=
  await questions <- llmQuestions query numQuestions ;;
  Ok (slice0 questions numQuestions).

(** The [urlsSection] of [writeFinalReport]. *)
Definition urlsSection (visitedUrls : list string) : string :=
  (nl ++ nl ++ "## Sources" ++ nl ++ nl
   ++ join nl (map (fun url => "- " ++ url) visitedUrls))%string.

(** [writeFinalReport].  [llmReport] is its [generateObject] call, as a
    function of the prompt and the learnings; it answers with
    [res.object.reportMarkdown]. *)
Definition writeFinalReport (llmReport : string -> list string -> Result string)
           (prompt : string) (learnings visitedUrls : list string)
  : Result string :=
  await reportMarkdown <- llmReport prompt learnings ;;
  Ok (reportMarkdown ++ urlsSection visitedUrls)%string.

(* ================================================================== *)
(** * [withRetry] ([src/email-report.ts], [src/database.ts])            *)
(* ================================================================== *)

(** How a promise settles when the value thrown may be [undefined]. *)
Inductive Settled (T : Type) : Type :=
| Fulfilled (a : T)
| Rejected (e : JsError)
| RejectedUndefined.

Arguments Fulfilled {T} a.
Arguments Rejected {T} e.
Arguments RejectedUndefined {T}.

(** What a run of [withRetry] leaves behind: how it settled, the delays it
    slept (in milliseconds, in order), and the state of whatever the
    operation acts on. *)
Record RetryRun (St T : Type) := {
  run_outcome : Settled T;
  run_delays : list Z;
  run_state : St
}.

Section Retry.

Variables St T : Type.

(** The operation: a call may change the state it closes over. *)
Variable operation : St -> Result T * St.

Variable maxRetries : Z.

(** The loop [for (attempt = 1; attempt <= maxRetries; attempt++)];
    [remaining] counts the iterations that are left. *)
Fixpoint retryLoop (remaining : nat) (attempt : Z) (lastError : option JsError)
         (delays : list Z) (st : St) : RetryRun St T :=
  match remaining with
  | O =>
      {| run_outcome := match lastError with
                        | Some e => Rejected e
                        | None => RejectedUndefined
                        end;
         run_delays := delays;
         run_state := st |}
  | S remaining' =>
      match operation st with
      | (Ok a, st') =>
          {| run_outcome := Fulfilled a; run_delays := delays; run_state := st' |}
      | (Err e, st') =>
          if (attempt =? maxRetries)%Z then
            {| run_outcome := Rejected e; run_delays := delays; run_state := st' |}
          else
            retryLoop remaining' (attempt + 1)%Z (Some e)
                      (delays ++ [2 ^ (attempt - 1) * 1000]%Z) st'
      end
  end.

(** [withRetry(operation, maxRetries)] *)
Definition withRetry (st : St) : RetryRun St T :=
  retryLoop (Z.to_nat maxRetries) 1 None [] st.

(** The state after [k] calls of the operation. *)
Fixpoint stateAfter (k : nat) (st : St) : St :=
  match k with
  | O => st
  | S k' => stateAfter k' (snd (operation st))
  end.

(** How the call number [k + 1] of the operation settles. *)
Definition attemptOutcome (k : nat) (st : St) : Result T :=
  fst (operation (stateAfter k st)).

End Retry.

(** The delays slept before the attempt number [k + 1]: 1s, 2s, 4s, ... *)
Definition backoff (k : nat) : list Z :=
  map (fun j => 2 ^ Z.of_nat j * 1000)%Z (seq 0 k).

(* ================================================================== *)
(** * The email report ([sendEmailReport] of [src/email-report.ts])     *)
(* ================================================================== *)

Record ReportStats := {
  rs_query : string;
  rs_totalContacts : Z;
  rs_inserted : Z;
  rs_updated : Z;
  rs_rejected : Z;
  rs_correctionsCount : Z;
  rs_runDate : string;
  rs_runId : string
}.

(** The variables of [process.env] that [sendEmailReport] reads. *)
Record EmailEnv := {
  RESEND_API_KEY : option string;
  RESEND_TO_EMAIL : option string;
  RESEND_FROM_EMAIL : option string
}.

(** The argument of [resend.emails.send]. *)
Record EmailMessage := {
  em_from : string;
  em_to : string;
  em_subject : string;
  em_html : string
}.

(** What [sendEmailReport] resolves with. *)
Record EmailResult := {
  er_success : bool;
  er_messageId : option string;
  er_error : option string
}.

(** An optional string is truthy when it is present and not empty. *)
Definition truthyOpt (o : option string) : bool :=
  match o with
  | Some s => truthy s
  | None => false
  end.

(** [a || b] on optional strings. *)
Definition orElseOpt (a b : option string) : option string :=
  if truthyOpt a then a else b.

(** [`${n}`] of an integer. *)
Definition showZ (n : Z) : string :=
  DecimalString.NilZero.string_of_int (Z.to_int n).

(** [const to = recipientEmail || process.env.RESEND_TO_EMAIL] *)
Definition emailRecipient (env : EmailEnv) (recipientEmail : option string)
  : option string :=
  orElseOpt recipientEmail (RESEND_TO_EMAIL env).

(** [const from = fromEmail || process.env.RESEND_FROM_EMAIL
                  || 'noreply@example.com'] *)
Definition emailSender (env : EmailEnv) (fromEmail : option string)
  : option string :=
  orElseOpt (orElseOpt fromEmail (RESEND_FROM_EMAIL env))
            (Some "noreply@example.com"%string).

(** The argument [{ from, to, subject, html: htmlReport }] of the send. *)
Definition emailMessage (env : EmailEnv) (htmlReport : string)
           (stats : ReportStats) (recipientEmail fromEmail : option string)
  : EmailMessage :=
  {| em_from := match emailSender env fromEmail with
                | Some s => s
                | None => ""
                end;
     em_to := match emailRecipient env recipientEmail with
              | Some s => s
              | None => ""
              end;
     em_subject := ("Deep Research Report — " ++ rs_query stats ++ " ("
                    ++ showZ (rs_totalContacts stats) ++ " contacts)")%string;
     em_html := htmlReport |}.

(** [sendEmailReport].  [send msg k] is how the call of
    [resend.emails.send(msg)] settles when [k] calls were made before it; it
    answers with [result.data?.id].  The second component of the result is
    the number of calls made. *)
Definition sendEmailReport (env : EmailEnv)
           (send : EmailMessage -> nat -> Result (option string))
           (htmlReport : string) (stats : ReportStats)
           (recipientEmail fromEmail : option string)
  : Result EmailResult * nat :=
  if negb (truthyOpt (RESEND_API_KEY env)) then
    (Ok {| er_success := false; er_messageId := None;
           er_error := Some "RESEND_API_KEY not configured"%string |}, 0%nat)
  else if negb (truthyOpt (emailRecipient env recipientEmail)) then
    (Ok {| er_success := false; er_messageId := None;
           er_error := Some "No recipient email configured"%string |}, 0%nat)
  else
    let msg := emailMessage env htmlReport stats recipientEmail fromEmail in
    let run := withRetry (fun k : nat => (send msg k, S k)) 3 0%nat in
    match run_outcome run with
    | Fulfilled id =>
        (Ok {| er_success := true; er_messageId := id; er_error := None |},
         run_state run)
    | Rejected e =>
        (Ok {| er_success := false; er_messageId := None;
               er_error := Some ("Failed to send email report: " ++ e)%string |},
         run_state run)
    | RejectedUndefined =>
        (Err "TypeError: Cannot read properties of undefined (reading 'message')"%string,
         run_state run)
    end.

(* ================================================================== *)
(** * The database layer ([src/database.ts])                            *)
(* ================================================================== *)

Record InsertionResult := {
  inserted : Z;
  updated : Z;
  rejected : Z;
  errors : list string
}.

(** The row [normalizeContact] builds. *)
Record NormalizedContact := {
  n_name : string;
  n_email : string;
  n_company : string;
  n_tags : list string;
  n_position : string;
  n_city : string;
  n_state_province : string;
  n_country : string;
  n_number : option string;
  n_time_zone : string;
  n_department : option string;
  n_priority : Z;
  n_signal : string;
  n_signal_level : string;
  n_compliment : string;
  n_industry : string;
  n_links : string;
  n_source : string
}.

(** [x || null] on an optional string. *)
Definition orNull (o : option string) : option string :=
  if truthyOpt o then o else None.

(** [normalizeContact]: on the declared type of [Contact] the defaults
    [|| ''], [|| []] and [|| 0] change nothing; an empty [number] or
    [department] becomes [null]. *)
Definition normalizeContact (contact : Contact) : NormalizedContact :=
  {| n_name := orElse (name contact) "";
     n_email := orElse (email contact) "";
     n_company := orElse (company contact) "";
     n_tags := tags contact;
     n_position := orElse (position contact) "";
     n_city := orElse (city contact) "";
     n_state_province := orElse (stateProvince contact) "";
     n_country := orElse (country contact) "";
     n_number := orNull (number contact);
     n_time_zone := orElse (timeZone contact) "";
     n_department := orNull (department contact);
     n_priority := if (priority contact =? 0)%Z then 0%Z else priority contact;
     n_signal := orElse (signal contact) "";
     n_signal_level := orElse (signalLevel contact) "";
     n_compliment := orElse (compliment contact) "";
     n_industry := orElse (industry contact) "";
     n_links := orElse (links contact) "";
     n_source := "deep-research" |}.

Inductive InsertAction := ActionInserted | ActionUpdated | ActionRejected.

(** What [insertSingleContact] resolves with. *)
Record InsertOutcome := {
  io_action : InsertAction;
  io_error : option string
}.

(** The database behind the pool, as a state [Db] and the calls the code
    makes on it.  [db_upsert] is the [INSERT ... ON CONFLICT] query; it
    answers with [result.rows[0]?.inserted]. *)
Record DbClient (Db : Type) := {
  db_connect : Db -> Result unit * Db;
  db_begin : Db -> Result unit * Db;
  db_commit : Db -> Result unit * Db;
  db_rollback : Db -> Result unit * Db;
  db_upsert : NormalizedContact -> Db -> Result (option bool) * Db;
  db_release : Db -> Db
}.

(** The loop that fills [batches]: [contacts.slice(i, i + batchSize)] for
    [i = 0, batchSize, 2 * batchSize, ...] while [i < contacts.length].
    [fuel] bounds the number of iterations. *)
Fixpoint batchesFrom {A : Type} (fuel : nat) (batchSize i : nat) (contacts : list A)
  : list (list A) :=
  match fuel with
  | O => []
  | S fuel' =>
      if (i <? List.length contacts)%nat
      then firstn batchSize (skipn i contacts)
           :: batchesFrom fuel' batchSize (i + batchSize) contacts
      else []
  end.

(** The batches of [insertContacts]: [batchSize] is 50, and the loop ends
    within [contacts.length] iterations. *)
Definition makeBatches {A : Type} (contacts : list A) : list (list A) :=
  batchesFrom (List.length contacts) 50 0 contacts.

Definition emptyInsertion : InsertionResult :=
  {| inserted := 0; updated := 0; rejected := 0; errors := [] |}.

Section Database.

Variable Db : Type.
Variable client : DbClient Db.

(** [insertSingleContact] *)
Definition insertSingleContact (contact : Contact) (db : Db)
  : InsertOutcome * Db :=
  let normalizedContact := normalizeContact contact in
  if negb (truthy (n_email normalizedContact))
     || negb (truthy (n_name normalizedContact))
  then
    ({| io_action := ActionRejected;
        io_error := Some "Missing required fields: email or name"%string |}, db)
  else
    match db_upsert client normalizedContact db with
    | (Ok wasInserted, db') =>
        ({| io_action := match wasInserted with
                         | Some true => ActionInserted
                         | _ => ActionUpdated
                         end;
            io_error := None |}, db')
    | (Err e, db') =>
        ({| io_action := ActionRejected;
            io_error := Some ("Database error: " ++ e)%string |}, db')
    end.

(** The [switch] that counts one contact into [result]. *)
Definition countOutcome (result : InsertionResult) (contact : Contact)
           (contactResult : InsertOutcome) : InsertionResult :=
  match io_action contactResult with
  | ActionInserted =>
      {| inserted := inserted result + 1; updated := updated result;
         rejected := rejected result; errors := errors result |}
  | ActionUpdated =>
      {| inserted := inserted result; updated := updated result + 1;
         rejected := rejected result; errors := errors result |}
  | ActionRejected =>
      {| inserted := inserted result; updated := updated result;
         rejected := rejected result + 1;
         errors := if truthyOpt (io_error contactResult)
                   then errors result
                        ++ [(email contact ++ ": "
                             ++ match io_error contactResult with
                                | Some e => e
                                | None => ""
                                end)%string]
                   else errors result |}
  end.

(** The loop [for (const contact of batch)]. *)
Fixpoint insertBatch (batch : list Contact) (st : Db * InsertionResult)
  : Db * InsertionResult :=
  match batch with
  | [] => st
  | contact :: rest =>
      let (contactResult, db') := insertSingleContact contact (fst st) in
      insertBatch rest (db', countOutcome (snd st) contact contactResult)
  end.

(** The loop over the batches: [BEGIN] is outside the inner [try], the
    contacts of the batch and [COMMIT] are inside it, its [catch] rolls back
    and throws the error of the batch again. *)
Fixpoint insertBatches (batches : list (list Contact))
         (st : Db * InsertionResult) : Result unit * (Db * InsertionResult) :=
  match batches with
  | [] => (Ok tt, st)
  | batch :: rest =>
      match db_begin client (fst st) with
      | (Err e, db1) => (Err e, (db1, snd st))
      | (Ok _, db1) =>
          let (db2, result2) := insertBatch batch (db1, snd st) in
          match db_commit client db2 with
          | (Ok _, db3) => insertBatches rest (db3, result2)
          | (Err batchError, db3) =>
              match db_rollback client db3 with
              | (Ok _, db4) => (Err batchError, (db4, result2))
              | (Err e, db4) => (Err e, (db4, result2))
              end
          end
      end
  end.

(** The operation that [insertContacts] retries: connect, run the batches,
    release the client whatever happened.  It acts on the database and on
    the counters [result], which are declared outside of it. *)
Definition insertOperation (contacts : list Contact)
           (st : Db * InsertionResult) : Result unit * (Db * InsertionResult) :=
  match db_connect client (fst st) with
  | (Err e, db1) => (Err e, (db1, snd st))
  | (Ok _, db1) =>
      let (outcome, st2) := insertBatches (makeBatches contacts) (db1, snd st) in
      (outcome, (db_release client (fst st2), snd st2))
  end.

(** [insertContacts].  The result comes with the delays slept between the
    attempts and with the database as it is left. *)
Definition insertContacts (contacts : list Contact) (db : Db)
  : Result InsertionResult * list Z * Db :=
  match contacts with
  | [] => (Ok emptyInsertion, [], db)
  | _ :: _ =>
      let run := withRetry (insertOperation contacts) 3 (db, emptyInsertion) in
      let result := snd (run_state run) in
      match run_outcome run with
      | Fulfilled _ => (Ok result, run_delays run, fst (run_state run))
      | Rejected e =>
          (Ok {| inserted := inserted result; updated := updated result;
                 rejected := rejected result;
                 errors := errors result
                           ++ [("Database operation failed: " ++ e)%string] |},
           run_delays run, fst (run_state run))
      | RejectedUndefined =>
          (Err "TypeError: Cannot read properties of undefined (reading 'message')"%string,
           run_delays run, fst (run_state run))
      end
  end.

End Database.

(** [inserted + updated + rejected] *)
Definition counted (result : InsertionResult) : Z :=
  (inserted result + updated result + rejected result)%Z.

(** A database for the examples: the emails of the rows of [contacts].  An
    upsert answers [inserted = true] for an email that is new. *)
Definition memoryDb : DbClient (list string) :=
  {| db_connect := fun db => (Ok tt, db);
     db_begin := fun db => (Ok tt, db);
     db_commit := fun db => (Ok tt, db);
     db_rollback := fun db => (Ok tt, db);
     db_upsert := fun row db =>
                    (Ok (Some (negb (mem (n_email row) db))),
                     if mem (n_email row) db then db else db ++ [n_email row]);
     db_release := fun db => db |}.

(** The same database, empty at first, behind a connection whose first
    [COMMIT] fails; the rollback empties it again.  The first component of
    the state counts the commits tried. *)
Definition flakyDb : DbClient (nat * list string) :=
  {| db_connect := fun db => (Ok tt, db);
     db_begin := fun db => (Ok tt, db);
     db_commit := fun db =>
                    (match fst db with
                     | O => Err "connection reset"%string
                     | S _ => Ok tt
                     end, (S (fst db), snd db));
     db_rollback := fun db => (Ok tt, (fst db, []));
     db_upsert := fun row db =>
                    (Ok (Some (negb (mem (n_email row) (snd db)))),
                     (fst db,
                      if mem (n_email row) (snd db) then snd db
                      else snd db ++ [n_email row]));
     db_release := fun db => db |}.

(* ================================================================== *)
(** * [trimPrompt] ([src/ai/providers.ts])                              *)
(* ================================================================== *)

Module Providers.

Definition MinChunkSize : Z := 140.

(** [s.slice(0, n)] on a string, for [n >= 0]. *)
Definition sliceTo (s : string) (n : Z) : string :=
  substring 0 (Z.to_nat n) s.

Section TrimPrompt.

(** [encoder.encode(prompt).length]: the tokenizer is external. *)
Variable tokens : string -> Z.

(** [new RecursiveCharacterTextSplitter({ chunkSize, chunkOverlap: 0 })
      .splitText(prompt)], as a function of [chunkSize] and the prompt; the
    class is not among the sources. *)
Variable chunks : Z -> string -> Result (list string).

(** [trimPrompt], with [fuel] bounding the nesting of its recursive calls. *)
Fixpoint trimPrompt_fuel (fuel : nat) (prompt : string) (contextSize : Z)
  : option (Result string) :=
  match prompt with
  | EmptyString => Some (Ok EmptyString)
  | String _ _ =>
      let length := tokens prompt in
      if (length <=? contextSize)%Z then Some (Ok prompt)
      else
        let overflowTokens := (length - contextSize)%Z in
        let chunkSize :=
          (Z.of_nat (String.length prompt) - overflowTokens * 3)%Z in
        if (chunkSize <? MinChunkSize)%Z then
          Some (Ok (sliceTo prompt MinChunkSize))
        else
          match chunks chunkSize prompt with
          | Err e => Some (Err e)
          | Ok pieces =>
              let trimmedPrompt :=
                match pieces with
                | [] => EmptyString
                | first :: _ => first
                end in
              match fuel with
              | O => None
              | S fuel' =>
                  if (String.length trimmedPrompt =? String.length prompt)%nat
                  then trimPrompt_fuel fuel' (sliceTo prompt chunkSize) contextSize
                  else trimPrompt_fuel fuel' trimmedPrompt contextSize
              end
          end
  end.

(** Every recursive call is on a shorter prompt when the chunks fit the
    chunk size, so the length of the prompt is fuel enough. *)
Definition trimPrompt (prompt : string) (contextSize : Z) : Result string :=
  match trimPrompt_fuel (String.length prompt) prompt contextSize with
  | Some r => r
  | None => Err "unsettled"%string
  end.

End TrimPrompt.

End Providers.

(** The chunker of this development, as [Providers.trimPrompt] uses it. *)
Definition splitWith (size : Z) (text : string) : Result (list string) :=
  await sp <- newSplitter size 0 ;; Ok (splitText sp text).

(* ================================================================== *)
(** * Facts about the JavaScript helpers                                *)
(* ================================================================== *)

Lemma mem_In (x : string) (l : list string) : mem x l = true <-> In x l.
Proof.
  unfold mem. rewrite existsb_exists. split.
  - intros [y [Hy Heq]]. apply String.eqb_eq in Heq. now subst.
  - intro H. exists x. split; [assumption | apply String.eqb_refl].
Qed.

Lemma mem_not_In (x : string) (l : list string) : mem x l = false <-> ~ In x l.
Proof.
  rewrite <- mem_In. destruct (mem x l); split; intro H; congruence.
Qed.

Lemma NoDup_snoc (x : string) (l : list string) :
  NoDup l -> ~ In x l -> NoDup (l ++ [x]).
Proof.
  induction l as [| y l IH]; simpl; intros Hnd Hx.
  - constructor; [intros [] | constructor].
  - inversion_clear Hnd as [| ? ? Hy Hl].
    constructor.
    + rewrite in_app_iff. simpl. intros [H | [H | []]]; [now apply Hy |].
      apply Hx. now left.
    + apply IH; [assumption |]. intro H. apply Hx. now right.
Qed.

Lemma setInsertAll_NoDup (l seen : list string) :
  NoDup seen -> NoDup (setInsertAll seen l).
Proof.
  revert seen. induction l as [| x l IH]; simpl; intros seen Hnd.
  - assumption.
  - destruct (mem x seen) eqn:Hmem.
    + now apply IH.
    + apply IH. apply NoDup_snoc; [assumption | now apply mem_not_In].
Qed.

Lemma setInsertAll_In (l seen : list string) (y : string) :
  In y (setInsertAll seen l) <-> In y seen \/ In y l.
Proof.
  revert seen. induction l as [| x l IH]; simpl; intro seen.
  - tauto.
  - destruct (mem x seen) eqn:Hmem; rewrite IH.
    + apply mem_In in Hmem. split; [tauto |].
      intros [H | [H | H]]; subst; tauto.
    + rewrite in_app_iff. simpl. tauto.
Qed.

Lemma dedupe_NoDup (l : list string) : NoDup (dedupe l).
Proof. apply setInsertAll_NoDup. constructor. Qed.

Lemma dedupe_In (l : list string) (y : string) : In y (dedupe l) <-> In y l.
Proof. unfold dedupe. rewrite setInsertAll_In. simpl. tauto. Qed.

Lemma slice0_zero (A : Type) (l : list A) : slice0 l 0 = [].
Proof. reflexivity. Qed.

Lemma slice0_length (A : Type) (l : list A) (e : Z) :
  (0 <= e)%Z -> List.length (slice0 l e) = Nat.min (Z.to_nat e) (List.length l).
Proof.
  intro He. unfold slice0.
  destruct (e <? 0)%Z eqn:Hneg; [apply Z.ltb_lt in Hneg; lia |].
  apply length_firstn.
Qed.

Lemma slice0_incl (A : Type) (l : list A) (e : Z) (x : A) :
  In x (slice0 l e) -> In x l.
Proof.
  unfold slice0. intro H.
  rewrite <- (firstn_skipn
                (Z.to_nat (if (e <? 0)%Z then Z.of_nat (List.length l) + e else e))
                l).
  apply in_or_app. now left.
Qed.

(* ================================================================== *)
(** * The research scheduler                                            *)
(* ================================================================== *)

Lemma mockResult_NoDup :
  NoDup (rr_learnings mockResult) /\ NoDup (rr_visitedUrls mockResult).
Proof.
  split; simpl; repeat (constructor; [simpl; intuition discriminate |]);
    constructor.
Qed.

Lemma promiseAll_settles (A : Type) (ps : list (option (Result A))) :
  (forall p, In p ps -> exists r, p = Some r) ->
  exists rs, promiseAll ps = Some rs.
Proof.
  induction ps as [| p ps IH]; simpl; intro H.
  - eauto.
  - destruct (H p (or_introl eq_refl)) as [r ->].
    destruct IH as [rs ->]; eauto.
Qed.

Lemma promiseAll_Ok (A : Type) (ps : list (option (Result A))) (l : list A) :
  promiseAll ps = Some (Ok l) -> ps = map (fun a => Some (Ok a)) l.
Proof.
  revert l. induction ps as [| p ps IH]; simpl; intros l H.
  - now inversion H.
  - destruct p as [[a | e] |]; try discriminate;
      destruct (promiseAll ps) as [[l' | e'] |]; try discriminate.
    inversion H; subst. simpl. f_equal. now apply IH.
Qed.

Lemma promiseAll_all_Ok (A : Type) (l : list A) :
  promiseAll (map (fun a => Some (Ok a)) l) = Some (Ok l).
Proof.
  induction l as [| a l IH]; simpl; [reflexivity | now rewrite IH].
Qed.

(** A rejected promise among the arguments of [Promise.all] rejects the
    whole, provided the others settle. *)
Lemma promiseAll_Err (A : Type) (ps : list (option (Result A))) (e : JsError) :
  In (Some (Err e)) ps ->
  (forall p, In p ps -> exists r, p = Some r) ->
  exists e', promiseAll ps = Some (Err e').
Proof.
  induction ps as [| p ps IH]; simpl; intros Hin Hall; [contradiction |].
  destruct (promiseAll_settles ps) as [rs Hrs]; [auto |].
  destruct Hin as [-> | Hin].
  - rewrite Hrs. eauto.
  - destruct IH as [e' He']; [assumption | auto |].
    destruct (Hall p (or_introl eq_refl)) as [r ->].
    rewrite He'. destruct r; eauto.
Qed.

Section ResearchFacts.

Variable w : Collaborators.

(** The search of a branch fails: the [catch] answers the empty result. *)
Lemma researchBranch_search_fails recurse breadth depth learnings visitedUrls
      serpQuery e :
  firecrawlSearch w (sq_query serpQuery) = Err e ->
  researchBranch w recurse breadth depth learnings visitedUrls serpQuery
  = Some (Ok emptyResult).
Proof. intro H. unfold researchBranch. now rewrite H. Qed.

(** The extraction of learnings of a branch fails: the same. *)
Lemma researchBranch_extraction_fails recurse breadth depth learnings
      visitedUrls serpQuery result e :
  firecrawlSearch w (sq_query serpQuery) = Ok result ->
  processSerpResult w (sq_query serpQuery) result (ceilHalf breadth) = Err e ->
  researchBranch w recurse breadth depth learnings visitedUrls serpQuery
  = Some (Ok emptyResult).
Proof. intros H1 H2. unfold researchBranch. now rewrite H1, H2. Qed.

(** At depth 1 or below a branch never recurses. *)
Lemma researchBranch_leaf recurse breadth depth learnings visitedUrls
      serpQuery :
  (depth <= 1)%Z ->
  exists r,
    researchBranch w recurse breadth depth learnings visitedUrls serpQuery
    = Some (Ok r).
Proof.
  intro Hd. unfold researchBranch.
  destruct (firecrawlSearch w (sq_query serpQuery)); [| eauto].
  destruct (processSerpResult w _ _ _); [| eauto].
  destruct (depth - 1 >? 0)%Z eqn:Hgt; [| eauto].
  apply Z.gtb_lt in Hgt. lia.
Qed.

(** [Z.to_nat depth] nested calls are enough: the call settles. *)
Lemma deepResearch_fuel_enough (fuel : nat) :
  forall query breadth depth learnings visitedUrls,
    (Z.to_nat depth <= S fuel)%nat ->
    exists r,
      deepResearch_fuel w fuel query breadth depth learnings visitedUrls
      = Some r.
Proof.
  induction fuel as [| fuel IH]; intros query breadth depth learnings
    visitedUrls Hfuel; simpl;
    (destruct (bypass w); [eauto |]);
    (destruct (generateSerpQueries w query breadth learnings) as [qs | e];
     [| eauto]).
  - destruct (promiseAll_settles
                (map (researchBranch w (fun _ _ _ _ _ => None) breadth depth
                                     learnings visitedUrls) qs)) as [rs Hrs].
    + intros p Hp. apply in_map_iff in Hp. destruct Hp as [sq [<- _]].
      destruct (@researchBranch_leaf (fun _ _ _ _ _ => None) breadth depth
                  learnings visitedUrls sq) as [r Hr]; [lia |].
      rewrite Hr. eauto.
    + rewrite Hrs. destruct rs; eauto.
  - destruct (promiseAll_settles
                (map (researchBranch w (deepResearch_fuel w fuel) breadth depth
                                     learnings visitedUrls) qs)) as [rs Hrs].
    + intros p Hp. apply in_map_iff in Hp. destruct Hp as [sq [<- _]].
      unfold researchBranch.
      destruct (firecrawlSearch w (sq_query sq)); [| eauto].
      destruct (processSerpResult w _ _ _); [| eauto].
      destruct (depth - 1 >? 0)%Z; [| eauto].
      apply IH. lia.
    + rewrite Hrs. destruct rs; eauto.
Qed.

(** [deepResearch] is the settled value of the fuelled function. *)
Lemma deepResearch_settled query breadth depth learnings visitedUrls :
  deepResearch_fuel w (Z.to_nat depth) query breadth depth learnings visitedUrls
  = Some (deepResearch w query breadth depth learnings visitedUrls).
Proof.
  unfold deepResearch.
  destruct (@deepResearch_fuel_enough (Z.to_nat depth) query breadth depth
              learnings visitedUrls) as [r Hr]; [lia |].
  now rewrite Hr.
Qed.

(** Every fulfilled call, at whatever nesting, answers with the bypass
    constant or with a merge. *)
Lemma deepResearch_fuel_Ok fuel query breadth depth learnings visitedUrls r :
  deepResearch_fuel w fuel query breadth depth learnings visitedUrls
  = Some (Ok r) ->
  r = mockResult \/ exists results, r = mergeResults results.
Proof.
  destruct fuel; simpl;
    (destruct (bypass w); [intro H; inversion H; now left |]);
    (destruct (generateSerpQueries w query breadth learnings);
     [| discriminate]);
    match goal with
    | |- match ?p with _ => _ end = _ -> _ =>
        destruct p as [[results | e] |]; try discriminate
    end;
    intro H; inversion H; right; eauto.
Qed.

End ResearchFacts.

Lemma SerpQuery_eq_dec (a b : SerpQuery) : {a = b} + {a <> b}.
Proof. decide equality; apply string_dec. Qed.

Section ResearchEquations.

Variable w : Collaborators.

(** A branch only uses its recursive call at depth [depth - 1], and only
    when that is positive. *)
Lemma researchBranch_ext rec1 rec2 breadth depth learnings visitedUrls sq :
  ((depth - 1 > 0)%Z ->
   forall q b l v, rec1 q b (depth - 1)%Z l v = rec2 q b (depth - 1)%Z l v) ->
  researchBranch w rec1 breadth depth learnings visitedUrls sq
  = researchBranch w rec2 breadth depth learnings visitedUrls sq.
Proof.
  intro Hrec. unfold researchBranch.
  destruct (firecrawlSearch w (sq_query sq)); [| reflexivity].
  destruct (processSerpResult w _ _ _); [| reflexivity].
  destruct (depth - 1 >? 0)%Z eqn:Hgt; [| reflexivity].
  apply Hrec. apply Z.gtb_lt in Hgt. lia.
Qed.

Lemma dispatchedBranch_settles breadth depth learnings visitedUrls sq :
  exists r, dispatchedBranch w breadth depth learnings visitedUrls sq = Some r.
Proof.
  unfold dispatchedBranch, researchBranch.
  destruct (firecrawlSearch w (sq_query sq)); [| eauto].
  destruct (processSerpResult w _ _ _); [| eauto].
  destruct (depth - 1 >? 0)%Z; eauto.
Qed.

(** The recursion equation of [deepResearch], free of fuel. *)
Lemma deepResearch_unfold query breadth depth learnings visitedUrls :
  deepResearch w query breadth depth learnings visitedUrls
  = if bypass w then Ok mockResult
    else
      await serpQueries <- generateSerpQueries w query breadth learnings ;;
      match promiseAll
              (map (dispatchedBranch w breadth depth learnings visitedUrls)
                   serpQueries) with
      | Some (Ok results) => Ok (mergeResults results)
      | Some (Err e) => Err e
      | None => Err "unsettled"%string
      end.
Proof.
  unfold deepResearch at 1.
  destruct (Z.to_nat depth) as [| fuel] eqn:Hfuel; simpl;
    (destruct (bypass w); [reflexivity |]);
    (destruct (generateSerpQueries w query breadth learnings) as [qs | e];
     [simpl | reflexivity]).
  - replace (map (researchBranch w (fun _ _ _ _ _ => None) breadth depth
                                 learnings visitedUrls) qs)
      with (map (dispatchedBranch w breadth depth learnings visitedUrls) qs).
    + now destruct (promiseAll _) as [[? | ?] |].
    + apply map_ext. intro sq. apply researchBranch_ext. lia.
  - replace (map (researchBranch w (deepResearch_fuel w fuel) breadth depth
                                 learnings visitedUrls) qs)
      with (map (dispatchedBranch w breadth depth learnings visitedUrls) qs).
    + now destruct (promiseAll _) as [[? | ?] |].
    + apply map_ext. intro sq. apply researchBranch_ext.
      intros Hd q b l v.
      replace fuel with (Z.to_nat (depth - 1)) by lia.
      symmetry. apply deepResearch_settled.
Qed.

(** The merge keeps every learning and every URL of every branch. *)
Lemma mergeResults_keeps results res :
  In res results ->
  incl (rr_learnings res) (rr_learnings (mergeResults results))
  /\ incl (rr_visitedUrls res) (rr_visitedUrls (mergeResults results)).
Proof.
  intro Hin. split; intros x Hx; simpl; apply dedupe_In; apply in_flat_map;
    eauto.
Qed.

(** When every dispatched branch is fulfilled, the call is, with the merge
    of the branches. *)
Lemma deepResearch_all_branches_Ok query breadth depth learnings visitedUrls
      serpQueries :
  bypass w = false ->
  generateSerpQueries w query breadth learnings = Ok serpQueries ->
  (forall sq, In sq serpQueries ->
     exists res,
       dispatchedBranch w breadth depth learnings visitedUrls sq = Some (Ok res)) ->
  exists results,
    map (dispatchedBranch w breadth depth learnings visitedUrls) serpQueries
    = map (fun res => Some (Ok res)) results
    /\ deepResearch w query breadth depth learnings visitedUrls
       = Ok (mergeResults results).
Proof.
  intros Hby Hqs Hall. rewrite deepResearch_unfold, Hby, Hqs. simpl.
  clear Hqs.
  assert (exists results,
             map (dispatchedBranch w breadth depth learnings visitedUrls)
                 serpQueries
             = map (fun res => Some (Ok res)) results) as [results Hres].
  { induction serpQueries as [| sq qs IH].
    - exists []. reflexivity.
    - destruct (Hall sq (or_introl eq_refl)) as [res Hsq].
      destruct IH as [results Hres]; [intros; apply Hall; now right |].
      exists (res :: results). simpl. now rewrite Hsq, Hres. }
  exists results. split; [assumption |].
  now rewrite Hres, promiseAll_all_Ok.
Qed.

(** Failure isolation for the two awaited steps of a branch: when the
    search or the extraction of one branch fails and the other branches are
    fulfilled, the call is fulfilled, the failed branch counts as the empty
    result, and what the other branches found is in the merged result. *)
Theorem failed_search_is_contained query breadth depth learnings visitedUrls
        serpQueries failing :
  bypass w = false ->
  generateSerpQueries w query breadth learnings = Ok serpQueries ->
  In failing serpQueries ->
  ((exists e, firecrawlSearch w (sq_query failing) = Err e)
   \/ (exists result e,
         firecrawlSearch w (sq_query failing) = Ok result
         /\ processSerpResult w (sq_query failing) result (ceilHalf breadth)
            = Err e)) ->
  (forall sq, In sq serpQueries -> sq <> failing ->
     exists res,
       dispatchedBranch w breadth depth learnings visitedUrls sq = Some (Ok res)) ->
  dispatchedBranch w breadth depth learnings visitedUrls failing
  = Some (Ok emptyResult)
  /\ exists r,
      deepResearch w query breadth depth learnings visitedUrls = Ok r
      /\ forall sq res,
          In sq serpQueries ->
          dispatchedBranch w breadth depth learnings visitedUrls sq
          = Some (Ok res) ->
          incl (rr_learnings res) (rr_learnings r)
          /\ incl (rr_visitedUrls res) (rr_visitedUrls r).
Proof.
  intros Hby Hqs Hin Hfail Hothers.
  assert (dispatchedBranch w breadth depth learnings visitedUrls failing
          = Some (Ok emptyResult)) as Hempty.
  { destruct Hfail as [[e He] | [result [e [Hs He]]]].
    - eapply researchBranch_search_fails; eassumption.
    - eapply researchBranch_extraction_fails; eassumption. }
  split; [assumption |].
  destruct (@deepResearch_all_branches_Ok query breadth depth learnings
              visitedUrls serpQueries Hby Hqs) as [results [Hmap Hres]].
  { intros sq Hsq.
    destruct (SerpQuery_eq_dec sq failing) as [-> | Hne]; eauto. }
  exists (mergeResults results). split; [assumption |].
  intros sq res Hsq Hbranch. apply mergeResults_keeps.
  assert (In (Some (Ok res))
             (map (dispatchedBranch w breadth depth learnings visitedUrls)
                  serpQueries)) as Hmem.
  { rewrite <- Hbranch. now apply in_map. }
  rewrite Hmap in Hmem. apply in_map_iff in Hmem.
  destruct Hmem as [res' [Heq Hres']]. now inversion Heq; subst.
Qed.

End ResearchEquations.

(** [deepResearch] has no terminal case of its own: whatever the breadth and
    the depth, outside bypass mode it first asks the language model for SERP
    queries, and a failure of that call is the outcome of the research. *)
Lemma deepResearch_asks_for_queries_first (w : Collaborators) query breadth depth
      learnings visitedUrls e :
  bypass w = false ->
  llmSerpQueries w query learnings breadth = Err e ->
  deepResearch w query breadth depth learnings visitedUrls = Err e.
Proof.
  intros Hby Hllm. rewrite deepResearch_unfold, Hby.
  unfold generateSerpQueries. now rewrite Hllm.
Qed.

(** With breadth 0 the answer of the language model is sliced to no query at
    all: nothing is searched and the result is empty. *)
Lemma deepResearch_zero_breadth (w : Collaborators) query depth learnings
      visitedUrls queries :
  bypass w = false ->
  llmSerpQueries w query learnings 0 = Ok queries ->
  deepResearch w query 0 depth learnings visitedUrls = Ok emptyResult.
Proof.
  intros Hby Hllm. rewrite deepResearch_unfold, Hby.
  unfold generateSerpQueries. rewrite Hllm. reflexivity.
Qed.

(** A depth of zero or below is no terminal case either: the call does what
    a call at depth 1 does, a search and an extraction per query, without
    recursion. *)
Lemma deepResearch_depth_below_one (w : Collaborators) query breadth depth
      learnings visitedUrls :
  (depth <= 1)%Z ->
  deepResearch w query breadth depth learnings visitedUrls
  = deepResearch w query breadth 1 learnings visitedUrls.
Proof.
  intro Hd. rewrite !deepResearch_unfold.
  destruct (bypass w); [reflexivity |].
  destruct (generateSerpQueries w query breadth learnings) as [qs | e];
    [simpl | reflexivity].
  replace (map (dispatchedBranch w breadth depth learnings visitedUrls) qs)
    with (map (dispatchedBranch w breadth 1 learnings visitedUrls) qs);
    [reflexivity |].
  apply map_ext. intro sq. unfold dispatchedBranch, researchBranch.
  destruct (firecrawlSearch w (sq_query sq)); [| reflexivity].
  destruct (processSerpResult w _ _ _); [| reflexivity].
  destruct (depth - 1 >? 0)%Z eqn:Hgt; [apply Z.gtb_lt in Hgt; lia |].
  reflexivity.
Qed.

(** C1 (as the code runs it).  A call with breadth 1 and depth 0 is not a
    terminal case for the code: the query the language model proposes is
    searched, its learnings are extracted, and the call answers with them
    instead of the empty result. *)
Example deepResearch_zero_depth_still_searches :
  deepResearch Fixtures.worldOne "topic" 1 0 [] []
  = Ok {| rr_learnings := ["learning one"%string];
          rr_visitedUrls := ["https://a.example/"%string] |}.
Proof. reflexivity. Qed.

(** C4.  Whatever the collaborators answer and whatever the branches return,
    the learnings and the visited URLs of a fulfilled [deepResearch] call
    hold no value twice. *)
Theorem deepResearch_no_duplicates (w : Collaborators) query breadth depth
        learnings visitedUrls r :
  deepResearch w query breadth depth learnings visitedUrls = Ok r ->
  NoDup (rr_learnings r) /\ NoDup (rr_visitedUrls r).
Proof.
  intro H.
  pose proof (deepResearch_settled w query breadth depth learnings visitedUrls)
    as Hfuel.
  rewrite H in Hfuel.
  destruct (deepResearch_fuel_Ok _ _ _ _ _ _ _ Hfuel) as [-> | [results ->]].
  - apply mockResult_NoDup.
  - split; apply dedupe_NoDup.
Qed.

(** Two sibling branches that discover the same URL and the same learning. *)
Lemma deepResearch_no_duplicates_witness :
  deepResearch Fixtures.worldSiblings "topic" 2 1 [] []
  = Ok {| rr_learnings := ["learning one"%string];
          rr_visitedUrls := ["https://a.example/"%string] |}
  /\ NoDup ["learning one"%string] /\ NoDup ["https://a.example/"%string].
Proof.
  split; [reflexivity |].
  apply (@deepResearch_no_duplicates Fixtures.worldSiblings "topic"%string 2 1
           [] [] {| rr_learnings := ["learning one"%string];
                    rr_visitedUrls := ["https://a.example/"%string] |}).
  reflexivity.
Defined.

(** The same holds at every nesting of the recursion. *)
Lemma deepResearch_fuel_no_duplicates (w : Collaborators) fuel query breadth
      depth learnings visitedUrls r :
  deepResearch_fuel w fuel query breadth depth learnings visitedUrls
  = Some (Ok r) ->
  NoDup (rr_learnings r) /\ NoDup (rr_visitedUrls r).
Proof.
  intro H. destruct (deepResearch_fuel_Ok _ _ _ _ _ _ _ H) as [-> | [results ->]].
  - apply mockResult_NoDup.
  - split; apply dedupe_NoDup.
Qed.

(** A timed-out search of one sibling leaves the other sibling's findings in
    the result. *)
Example deepResearch_timeout_is_contained :
  deepResearch Fixtures.worldTimeout "topic" 2 1 [] []
  = Ok {| rr_learnings := ["learning one"%string];
          rr_visitedUrls := ["https://a.example/"%string] |}.
Proof. reflexivity. Qed.

(** The only way for a dispatched branch to be rejected: its search and its
    extraction succeed, it recurses, and the recursive call is rejected. *)
Lemma dispatchedBranch_rejected_iff (w : Collaborators) breadth depth learnings
      visitedUrls sq e :
  dispatchedBranch w breadth depth learnings visitedUrls sq = Some (Err e)
  <-> exists result batch,
      firecrawlSearch w (sq_query sq) = Ok result
      /\ processSerpResult w (sq_query sq) result (ceilHalf breadth) = Ok batch
      /\ (depth - 1 > 0)%Z
      /\ deepResearch w (nextQuery (sq_researchGoal sq)
                                   (lb_followUpQuestions batch))
                       (ceilHalf breadth) (depth - 1)
                       (learnings ++ lb_learnings batch)
                       (visitedUrls ++ compact (map si_url result))
         = Err e.
Proof.
  unfold dispatchedBranch, researchBranch. split.
  - destruct (firecrawlSearch w (sq_query sq)) as [result |]; [| discriminate].
    destruct (processSerpResult w _ _ _) as [batch |] eqn:Hb; [| discriminate].
    destruct (depth - 1 >? 0)%Z eqn:Hgt; [| discriminate].
    intro H. exists result, batch.
    split; [reflexivity |]. split; [exact Hb |]. split.
    + apply Z.gtb_lt in Hgt. lia.
    + now inversion H.
  - intros [result [batch [Hs [Hb [Hgt Hrec]]]]].
    rewrite Hs, Hb.
    replace (depth - 1 >? 0)%Z with true
      by (symmetry; apply Z.gtb_lt; lia).
    now rewrite Hrec.
Qed.

(** A rejected branch rejects the call that dispatched it. *)
Lemma rejected_branch_rejects_parent (w : Collaborators) query breadth depth
      learnings visitedUrls serpQueries sq e :
  bypass w = false ->
  generateSerpQueries w query breadth learnings = Ok serpQueries ->
  In sq serpQueries ->
  dispatchedBranch w breadth depth learnings visitedUrls sq = Some (Err e) ->
  exists e', deepResearch w query breadth depth learnings visitedUrls = Err e'.
Proof.
  intros Hby Hqs Hin Hrej. rewrite deepResearch_unfold, Hby, Hqs. simpl.
  destruct (@promiseAll_Err ResearchResult
              (map (dispatchedBranch w breadth depth learnings visitedUrls)
                   serpQueries) e) as [e' He'].
  - rewrite <- Hrej. now apply in_map.
  - intros p Hp. apply in_map_iff in Hp. destruct Hp as [sq' [<- _]].
    apply dispatchedBranch_settles.
  - rewrite He'. eauto.
Qed.

(** C5 (as the code runs it).  Breadth 2, depth 2: both searches and both
    extractions succeed, and the first branch's recursive [deepResearch] call
    is rejected because the language model fails to generate its queries.  The
    branch returns that promise without awaiting it, the [catch] of the branch
    is not reached, [Promise.all] is rejected and so is the parent call: the
    failure of one branch is propagated and the findings of its sibling are
    lost. *)
Example deepResearch_nested_failure_propagates :
  deepResearch Fixtures.worldNestedFailure "topic" 2 2 [] []
  = Err "ModelError: quota exceeded"%string.
Proof. vm_compute. reflexivity. Qed.

(** The sibling of the failing branch was fulfilled, with findings. *)
Example deepResearch_nested_failure_sibling :
  dispatchedBranch Fixtures.worldNestedFailure 2 2 [] [] Fixtures.queryTwo
  = Some (Ok {| rr_learnings := ["learning one"%string];
                rr_visitedUrls := ["https://a.example/"%string] |})
  /\ dispatchedBranch Fixtures.worldNestedFailure 2 2 [] [] Fixtures.queryOne
     = Some (Err "ModelError: quota exceeded"%string).
Proof. split; vm_compute; reflexivity. Qed.

(* ================================================================== *)
(** * The audit engine: matching and merging                            *)
(* ================================================================== *)

(** The merged record takes every field of the verified contact; the two
    optional fields fall back on the original when the verified contact lacks
    them. *)
Lemma mergeContact_fields (contact verifiedContact : Contact) :
  let merged := mergeContact contact verifiedContact in
  name merged = name verifiedContact
  /\ company merged = company verifiedContact
  /\ position merged = position verifiedContact
  /\ tags merged = tags verifiedContact
  /\ city merged = city verifiedContact
  /\ stateProvince merged = stateProvince verifiedContact
  /\ country merged = country verifiedContact
  /\ industry merged = industry verifiedContact
  /\ department merged
     = optOr (department verifiedContact) (department contact)
  /\ number merged = optOr (number verifiedContact) (number contact).
Proof. simpl. repeat split. Qed.

(** The email of the merged record is the verified contact's, whenever the
    verified contact has one. *)
Lemma mergeContact_email_verified (contact verifiedContact : Contact) :
  email verifiedContact <> EmptyString ->
  email (mergeContact contact verifiedContact) = email verifiedContact.
Proof.
  intro H. simpl. unfold orElse.
  destruct (email verifiedContact); [congruence | reflexivity].
Qed.

(** The original email survives only when the verified contact has none. *)
Lemma mergeContact_email_original (contact verifiedContact : Contact) :
  email verifiedContact = EmptyString ->
  email (mergeContact contact verifiedContact) = email contact.
Proof. intro H. simpl. now rewrite H. Qed.

(** C2 (as the code runs it).  John is re-researched, the only candidate is
    John under a new email address; it matches on the name.  The merged record
    carries the candidate's email, not the original's, and the change is
    logged as a correction of the field [email]. *)
Example verifyContact_replaces_the_email :
  verifyContact Fixtures.worldNewEmail Fixtures.john "test" 1
  = Ok (Fixtures.johnNewEmail,
        [ {| corr_email := "john.doe@techcorp.com";
             corr_field := "email";
             corr_before := "john.doe@techcorp.com";
             corr_after := "new.email@techcorp.com";
             corr_reason := "Verification research found updated information" |} ]%string)
  /\ email Fixtures.johnNewEmail = "new.email@techcorp.com"%string
  /\ email Fixtures.johnNewEmail <> email Fixtures.john.
Proof.
  split; [vm_compute; reflexivity |].
  split; [reflexivity | discriminate].
Qed.

(** The predicate of [find], rule by rule. *)
Lemma isMatch_iff (w : Collaborators) (contact c : Contact) :
  isMatch w contact c = true <->
  includes (toLowerCase w (name c)) (toLowerCase w (name contact)) = true
  \/ toLowerCase w (email c) = toLowerCase w (email contact)
  \/ (toLowerCase w (company c) = toLowerCase w (company contact)
      /\ includes (toLowerCase w (position c))
                  (toLowerCase w (position contact)) = true).
Proof.
  unfold isMatch.
  rewrite !orb_true_iff, andb_true_iff, !String.eqb_eq. tauto.
Qed.

(** [find] answers with the first element that satisfies the predicate. *)
Lemma find_first (A : Type) (p : A -> bool) (l : list A) (x : A) :
  find p l = Some x ->
  exists before after,
    l = before ++ x :: after /\ p x = true
    /\ forall y, In y before -> p y = false.
Proof.
  induction l as [| a l IH]; simpl; [discriminate |].
  destruct (p a) eqn:Hpa.
  - intro H. inversion H; subst. exists [], l. simpl. intuition.
  - intro H. destruct (IH H) as [before [after [-> [Hx Hbefore]]]].
    exists (a :: before), after. simpl. intuition (subst; auto).
Qed.

(** C3 (the claim as stated fails).  Two candidates: a namesake at another
    company, then the record that carries the original's email.  The priority
    order of the document selects the second (rule 1, email), the code selects
    the first, whose name contains the original's.  All the strings are
    ASCII. *)
Lemma findMatch_is_not_by_priority :
  findMatch Fixtures.worldOne Fixtures.john
            [Fixtures.namesake; Fixtures.sameEmail]
  = Some Fixtures.namesake
  /\ specSelect Fixtures.worldOne Fixtures.john
                [Fixtures.namesake; Fixtures.sameEmail]
     = Some Fixtures.sameEmail
  /\ findMatch Fixtures.worldOne Fixtures.john
               [Fixtures.namesake; Fixtures.sameEmail]
     <> specSelect Fixtures.worldOne Fixtures.john
                   [Fixtures.namesake; Fixtures.sameEmail].
Proof.
  split; [vm_compute; reflexivity |].
  split; [vm_compute; reflexivity |].
  vm_compute. discriminate.
Qed.

(** C3 (amended).  For a non-empty list of candidates the code selects the
    first candidate, in the order returned, that satisfies at least one of:
    its name contains the original's name; its email equals the original's;
    its company equals the original's and its position contains the
    original's; every string is compared after the runtime's [toLowerCase],
    whatever that function does to it.  When no candidate satisfies any of
    them, it selects the first candidate returned. *)
Theorem findMatch_first_match_or_first (w : Collaborators) (contact : Contact)
        (candidates : list Contact) :
  candidates <> [] ->
  exists c,
    findMatch w contact candidates = Some c
    /\ ((exists before after,
            candidates = before ++ c :: after
            /\ isMatch w contact c = true
            /\ forall x, In x before -> isMatch w contact x = false)
        \/ ((forall x, In x candidates -> isMatch w contact x = false)
            /\ hd_error candidates = Some c)).
Proof.
  intro Hne. unfold findMatch.
  destruct (find (isMatch w contact) candidates) as [c |] eqn:Hfind.
  - exists c. split; [reflexivity |]. left. now apply find_first.
  - destruct candidates as [| c rest]; [congruence |].
    exists c. split; [reflexivity |]. right. split; [| reflexivity].
    intros x Hx. exact (find_none _ _ Hfind x Hx).
Qed.

Lemma findMatch_first_match_or_first_witness :
  [Fixtures.namesake; Fixtures.sameEmail] <> []
  /\ exists c,
      findMatch Fixtures.worldOne Fixtures.john
                [Fixtures.namesake; Fixtures.sameEmail] = Some c
      /\ ((exists before after,
              [Fixtures.namesake; Fixtures.sameEmail] = before ++ c :: after
              /\ isMatch Fixtures.worldOne Fixtures.john c = true
              /\ forall x, In x before ->
                           isMatch Fixtures.worldOne Fixtures.john x = false)
          \/ ((forall x, In x [Fixtures.namesake; Fixtures.sameEmail] ->
                 isMatch Fixtures.worldOne Fixtures.john x = false)
              /\ hd_error [Fixtures.namesake; Fixtures.sameEmail] = Some c)).
Proof.
  split; [discriminate |].
  apply (@findMatch_first_match_or_first Fixtures.worldOne Fixtures.john
           [Fixtures.namesake; Fixtures.sameEmail]).
  discriminate.
Defined.

(* ================================================================== *)
(** * The audit engine: the map of verified contacts                    *)
(* ================================================================== *)

Lemma mapSet_present (k : string) (v : Contact) (m : JsMap) :
  In k (map fst m) -> map fst (mapSet k v m) = map fst m.
Proof.
  induction m as [| [k' v'] m IH]; simpl; [contradiction |].
  intros [-> | Hin].
  - now rewrite String.eqb_refl.
  - destruct (String.eqb k' k); simpl; [reflexivity | now rewrite IH].
Qed.

Lemma mapSet_absent (k : string) (v : Contact) (m : JsMap) :
  ~ In k (map fst m) -> mapSet k v m = m ++ [(k, v)].
Proof.
  induction m as [| [k' v'] m IH]; simpl; intro Hnot; [reflexivity |].
  destruct (String.eqb k' k) eqn:Heq.
  - apply String.eqb_eq in Heq. tauto.
  - rewrite IH; tauto.
Qed.

Lemma mapSet_other (k : string) (v : Contact) (m : JsMap) (i : nat)
      (k' : string) (v' : Contact) :
  nth_error m i = Some (k', v') -> k' <> k ->
  nth_error (mapSet k v m) i = Some (k', v').
Proof.
  revert i. induction m as [| [k0 v0] m IH]; intros [| i]; simpl;
    try discriminate.
  - intros H Hne. inversion H; subst.
    destruct (String.eqb k' k) eqn:Heq; [| reflexivity].
    apply String.eqb_eq in Heq. contradiction.
  - intros H Hne. destruct (String.eqb k0 k); simpl; auto.
Qed.

Lemma mapGet_mapSet_same (k : string) (v : Contact) (m : JsMap) :
  mapGet k (mapSet k v m) = Some v.
Proof.
  induction m as [| [k' v'] m IH]; simpl.
  - now rewrite String.eqb_refl.
  - destruct (String.eqb k' k) eqn:Heq; simpl; now rewrite Heq.
Qed.

Lemma NoDup_map_injective (A B : Type) (f : A -> B) (l : list A) (x y : A) :
  NoDup (map f l) -> In x l -> In y l -> f x = f y -> x = y.
Proof.
  induction l as [| a l IH]; simpl; [contradiction |].
  intros Hnd Hx Hy Hf. inversion_clear Hnd as [| ? ? Ha Hl].
  destruct Hx as [-> | Hx], Hy as [-> | Hy]; auto.
  - exfalso. apply Ha. rewrite Hf. now apply in_map.
  - exfalso. apply Ha. rewrite <- Hf. now apply in_map.
Qed.

Section AuditFacts.

Variable w : Collaborators.

Lemma initMap_from (contacts : list Contact) :
  forall acc : JsMap,
    NoDup (map email contacts) ->
    (forall c, In c contacts -> ~ In (email c) (map fst acc)) ->
    fold_left (fun m contact => mapSet (email contact) contact m) contacts acc
    = acc ++ map mapEntry contacts.
Proof.
  induction contacts as [| c cs IH]; simpl; intros acc Hnd Hfresh.
  - now rewrite app_nil_r.
  - inversion_clear Hnd as [| ? ? Hc Hcs].
    rewrite mapSet_absent by (apply Hfresh; now left).
    rewrite IH; [now rewrite <- app_assoc | assumption |].
    intros c' Hc'. rewrite map_app, in_app_iff. simpl.
    intros [H | [H | []]].
    + apply (Hfresh c'); [now right | assumption].
    + apply Hc. rewrite H. now apply in_map.
Qed.

(** With pairwise distinct emails the map starts as the contacts, in their
    order, each under its own email. *)
Lemma initMap_distinct (contacts : list Contact) :
  NoDup (map email contacts) -> initMap contacts = map mapEntry contacts.
Proof.
  intro Hnd. unfold initMap. rewrite initMap_from; auto.
Qed.

(** [verifyContact] never rejects: every path of its body is covered by the
    [catch]. *)
Lemma verifyContact_never_rejects contact originalQuery depth :
  exists verifiedContact cs,
    verifyContact w contact originalQuery depth = Ok (verifiedContact, cs).
Proof.
  unfold verifyContact, tryCatch, bind.
  destruct (deepResearch w _ _ _ _ _); [| eauto].
  destruct (generateContactsFromLearnings w _ _); [| eauto].
  destruct (findMatch w contact _); eauto.
Qed.

(** One iteration sets the entry under the sampled contact's email and
    appends its corrections. *)
Lemma auditStep_sets originalQuery criteria st contact :
  exists verifiedContact cs,
    verifyContact w contact originalQuery (verificationDepth criteria)
    = Ok (verifiedContact, cs)
    /\ auditStep w originalQuery criteria st contact
       = (mapSet (email contact) verifiedContact (fst st), snd st ++ cs).
Proof.
  destruct (verifyContact_never_rejects contact originalQuery
              (verificationDepth criteria)) as [v [cs Hv]].
  exists v, cs. split; [assumption |].
  unfold auditStep. now rewrite Hv.
Qed.

(** The loop keeps the keys of the map, as long as it is run on contacts
    whose emails are keys already. *)
Lemma auditLoop_keys originalQuery criteria (sample : list Contact) :
  forall st : AuditState,
    (forall s, In s sample -> In (email s) (map fst (fst st))) ->
    map fst (fst (fold_left (auditStep w originalQuery criteria) sample st))
    = map fst (fst st).
Proof.
  induction sample as [| s sample IH]; simpl; intros st Hkeys;
    [reflexivity |].
  destruct (auditStep_sets originalQuery criteria st s) as [v [cs [_ Hstep]]].
  assert (map fst (fst (auditStep w originalQuery criteria st s))
          = map fst (fst st)) as Hsame.
  { rewrite Hstep. simpl. apply mapSet_present. apply Hkeys. now left. }
  rewrite IH; [assumption |].
  intros s' Hs'. rewrite Hsame. apply Hkeys. now right.
Qed.

(** The loop leaves alone every entry whose key is the email of no sampled
    contact. *)
Lemma auditLoop_untouched originalQuery criteria (sample : list Contact)
      (i : nat) (k : string) (v : Contact) :
  forall st : AuditState,
    (forall s, In s sample -> email s <> k) ->
    nth_error (fst st) i = Some (k, v) ->
    nth_error
      (fst (fold_left (auditStep w originalQuery criteria) sample st)) i
    = Some (k, v).
Proof.
  induction sample as [| s sample IH]; simpl; intros st Hne Hnth;
    [assumption |].
  apply IH; [intros; apply Hne; now right |].
  destruct (auditStep_sets originalQuery criteria st s) as [v' [cs [_ Hstep]]].
  rewrite Hstep. simpl. apply mapSet_other; [assumption |].
  intro Heq. apply (Hne s); [now left | now symmetry].
Qed.

(** [getRandomSample] draws from the array. *)
Lemma getRandomSample_incl (T : Type) (array : list T) (size : Z) :
  (forall (U : Type) (l : list U), Permutation (shuffle w l) l) ->
  incl (getRandomSample w array size) array.
Proof.
  intros Hperm x. unfold getRandomSample.
  destruct (Z.of_nat (List.length array) <=? size)%Z; [auto |].
  intro Hx. apply slice0_incl in Hx.
  eapply Permutation_in; [apply Hperm | exact Hx].
Qed.

End AuditFacts.

(* ================================================================== *)
(** * The audit engine: sampling, isolation of failures, the verified list *)
(* ================================================================== *)

(** For a non-negative [sampleSize] the sample has
    [min(sampleSize, records.length)] elements and is drawn without
    replacement: together with the records left out it is a rearrangement of
    the input, so every sampled record is an element of the input, and the
    sampled records are pairwise distinct whenever the input's are. *)
Theorem getRandomSample_without_replacement (w : Collaborators) (T : Type)
        (array : list T) (size : Z) :
  (forall (U : Type) (l : list U), Permutation (shuffle w l) l) ->
  (0 <= size)%Z ->
  List.length (getRandomSample w array size)
  = Nat.min (Z.to_nat size) (List.length array)
  /\ (exists rest, Permutation (getRandomSample w array size ++ rest) array)
  /\ incl (getRandomSample w array size) array
  /\ (NoDup array -> NoDup (getRandomSample w array size)).
Proof.
  intros Hperm Hsize.
  assert (exists rest, Permutation (getRandomSample w array size ++ rest) array)
    as Hrest.
  { unfold getRandomSample.
    destruct (Z.of_nat (List.length array) <=? size)%Z.
    - exists []. now rewrite app_nil_r.
    - exists (skipn (Z.to_nat size) (shuffle w array)).
      unfold slice0. destruct (size <? 0)%Z eqn:Hneg;
        [apply Z.ltb_lt in Hneg; lia |].
      rewrite firstn_skipn. apply Hperm. }
  split; [| split; [exact Hrest | split]].
  - unfold getRandomSample.
    destruct (Z.of_nat (List.length array) <=? size)%Z eqn:Hle.
    + apply Z.leb_le in Hle. lia.
    + rewrite slice0_length by assumption.
      now rewrite (Permutation_length (Hperm T array)).
  - now apply getRandomSample_incl.
  - intro Hnd. destruct Hrest as [rest Hrest].
    apply Permutation_sym in Hrest.
    apply (Permutation_NoDup Hrest) in Hnd.
    now apply NoDup_app_remove_r in Hnd.
Qed.

Lemma getRandomSample_without_replacement_witness :
  (forall (U : Type) (l : list U), Permutation (shuffle Fixtures.worldOne l) l)
  /\ (0 <= 2)%Z
  /\ List.length (getRandomSample Fixtures.worldOne
                                  [Fixtures.john; Fixtures.jane; Fixtures.namesake] 2)
     = Nat.min (Z.to_nat 2) 3
  /\ (exists rest,
         Permutation
           (getRandomSample Fixtures.worldOne
                            [Fixtures.john; Fixtures.jane; Fixtures.namesake] 2
            ++ rest)
           [Fixtures.john; Fixtures.jane; Fixtures.namesake])
  /\ incl (getRandomSample Fixtures.worldOne
                           [Fixtures.john; Fixtures.jane; Fixtures.namesake] 2)
          [Fixtures.john; Fixtures.jane; Fixtures.namesake]
  /\ (NoDup [Fixtures.john; Fixtures.jane; Fixtures.namesake] ->
      NoDup (getRandomSample Fixtures.worldOne
                             [Fixtures.john; Fixtures.jane; Fixtures.namesake] 2)).
Proof.
  split; [intros U l; apply Permutation_sym, Permutation_rev |].
  split; [lia |].
  apply (@getRandomSample_without_replacement Fixtures.worldOne Contact
           [Fixtures.john; Fixtures.jane; Fixtures.namesake] 2).
  - intros U l. apply Permutation_sym, Permutation_rev.
  - lia.
Defined.

(** The corrections of a run of the loop are those of the verification of
    each record it is run on, in order. *)
Lemma auditLoop_corrections_of (w : Collaborators) originalQuery criteria
      (sample : list Contact) :
  forall st : AuditState,
    snd (fold_left (auditStep w originalQuery criteria) sample st)
    = snd st
      ++ flat_map
           (fun contact =>
              match verifyContact w contact originalQuery
                                  (verificationDepth criteria) with
              | Ok (_, cs) => cs
              | Err _ => []
              end)
           sample.
Proof.
  induction sample as [| s sample IH]; simpl; intro st.
  - now rewrite app_nil_r.
  - rewrite IH. unfold auditStep.
    destruct (verifyContact w s originalQuery (verificationDepth criteria))
      as [[v cs] | e]; simpl; [now rewrite app_assoc | reflexivity].
Qed.

(** C8.  Outside bypass mode and for a non-negative [criteria.sampleSize],
    the records that [auditContacts] verifies are a sample of
    [min(criteria.sampleSize, records.length)] records drawn without
    replacement: together with the records left out the sample is a
    rearrangement of the input, so every sampled record is an element of the
    input and the sampled records are pairwise distinct whenever the input's
    are.  The audit is the loop of verifications run on that sample, from the
    map of all the records, and its corrections are those of verifying each
    sampled record, in order. *)
Theorem auditContacts_verifies_a_sample (w : Collaborators)
        (contacts : list Contact) (criteria : AuditingCriteria)
        (originalQuery : string) :
  (forall (U : Type) (l : list U), Permutation (shuffle w l) l) ->
  bypass w = false ->
  (0 <= sampleSize criteria)%Z ->
  exists sample rest res,
    Permutation (sample ++ rest) contacts
    /\ List.length sample
       = Nat.min (Z.to_nat (sampleSize criteria)) (List.length contacts)
    /\ incl sample contacts
    /\ (NoDup contacts -> NoDup sample)
    /\ auditContacts w contacts criteria originalQuery = Ok res
    /\ verifiedContacts res
       = mapValues
           (fst (fold_left (auditStep w originalQuery criteria) sample
                           (initMap contacts, [])))
    /\ corrections res
       = flat_map
           (fun contact =>
              match verifyContact w contact originalQuery
                                  (verificationDepth criteria) with
              | Ok (_, cs) => cs
              | Err _ => []
              end)
           sample.
Proof.
  intros Hperm Hby Hsize.
  destruct (@getRandomSample_without_replacement w Contact contacts
              (sampleSize criteria) Hperm Hsize)
    as [Hlen [[rest Hrest] [Hincl Hnd]]].
  exists (getRandomSample w contacts (sampleSize criteria)), rest.
  unfold auditContacts. rewrite Hby.
  destruct contacts as [| c0 cs] eqn:Hcontacts.
  - eexists. repeat (split; [assumption |]).
    split; [reflexivity |].
    unfold getRandomSample. simpl List.length.
    replace (Z.of_nat 0 <=? sampleSize criteria)%Z with true
      by (symmetry; apply Z.leb_le; simpl; lia).
    split; reflexivity.
  - rewrite <- Hcontacts in *.
    eexists. repeat (split; [assumption |]).
    split; [reflexivity |]. simpl.
    split; [reflexivity |].
    now rewrite auditLoop_corrections_of.
Qed.

Lemma auditContacts_verifies_a_sample_witness :
  (forall (U : Type) (l : list U),
      Permutation (shuffle Fixtures.worldNewTitle l) l)
  /\ bypass Fixtures.worldNewTitle = false
  /\ (0 <= sampleSize {| sampleSize := 2; verificationDepth := 1 |})%Z
  /\ exists sample rest res,
      Permutation (sample ++ rest)
                  [Fixtures.john; Fixtures.jane; Fixtures.namesake]
      /\ List.length sample
         = Nat.min
             (Z.to_nat (sampleSize {| sampleSize := 2; verificationDepth := 1 |}))
             (List.length [Fixtures.john; Fixtures.jane; Fixtures.namesake])
      /\ incl sample [Fixtures.john; Fixtures.jane; Fixtures.namesake]
      /\ (NoDup [Fixtures.john; Fixtures.jane; Fixtures.namesake] ->
          NoDup sample)
      /\ auditContacts Fixtures.worldNewTitle
                       [Fixtures.john; Fixtures.jane; Fixtures.namesake]
                       {| sampleSize := 2; verificationDepth := 1 |} "test"
         = Ok res
      /\ verifiedContacts res
         = mapValues
             (fst (fold_left
                     (auditStep Fixtures.worldNewTitle "test"
                                {| sampleSize := 2; verificationDepth := 1 |})
                     sample
                     (initMap [Fixtures.john; Fixtures.jane; Fixtures.namesake],
                      [])))
      /\ corrections res
         = flat_map
             (fun contact =>
                match verifyContact
                        Fixtures.worldNewTitle contact "test"
                        (verificationDepth
                           {| sampleSize := 2; verificationDepth := 1 |}) with
                | Ok (_, cs) => cs
                | Err _ => []
                end)
             sample.
Proof.
  split; [intros U l; apply Permutation_sym, Permutation_rev |].
  split; [reflexivity |].
  split; [simpl; lia |].
  apply (@auditContacts_verifies_a_sample Fixtures.worldNewTitle
           [Fixtures.john; Fixtures.jane; Fixtures.namesake]
           {| sampleSize := 2; verificationDepth := 1 |} "test"%string).
  - intros U l. apply Permutation_sym, Permutation_rev.
  - reflexivity.
  - simpl. lia.
Defined.

(** C7 (the claim as stated fails).  A search of the verification research
    times out, the other one succeeds: the research absorbs the failure and
    is fulfilled with what the other search found, a contact is extracted
    from it, and the record is returned changed, with one correction. *)
Lemma verifyContact_after_a_search_timeout :
  generateSerpQueries Fixtures.worldOneSearchDown
                      (verificationQuery Fixtures.john "test") 2 []
  = Ok [Fixtures.queryOne; Fixtures.queryTwo]
  /\ firecrawlSearch Fixtures.worldOneSearchDown (sq_query Fixtures.queryOne)
     = Err "Timeout: Request took too long"%string
  /\ verifyContact Fixtures.worldOneSearchDown Fixtures.john "test" 1
     = Ok (Fixtures.johnNewTitle,
           [ {| corr_email := "john.doe@techcorp.com";
                corr_field := "position";
                corr_before := "CEO";
                corr_after := "Chief Executive Officer";
                corr_reason := "Verification research found updated information" |} ]%string)
  /\ verifyContact Fixtures.worldOneSearchDown Fixtures.john "test" 1
     <> Ok (Fixtures.john, []).
Proof.
  split; [vm_compute; reflexivity |].
  split; [vm_compute; reflexivity |].
  split; [vm_compute; reflexivity |].
  vm_compute. discriminate.
Qed.

(** C7 (amended).  When the verification of a sampled record fails as a
    whole (the research is rejected, or the extraction of contacts is
    rejected, or no contact at all is extracted) [verifyContact] answers with
    the record itself and no correction, and the loop of [auditContacts] goes
    on with the remaining sampled records from a state in which that record
    stands unchanged under its email and no correction was added. *)
Theorem failed_verification_is_local (w : Collaborators) (contact : Contact)
        (originalQuery : string) (criteria : AuditingCriteria)
        (st : AuditState) (remaining : list Contact) :
  ((exists e,
       deepResearch w (verificationQuery contact originalQuery) 2
                    (verificationDepth criteria) [] [] = Err e)
   \/ (exists research,
          deepResearch w (verificationQuery contact originalQuery) 2
                       (verificationDepth criteria) [] [] = Ok research
          /\ ((exists e,
                  generateContactsFromLearnings w (rr_learnings research)
                                                [position contact] = Err e)
              \/ generateContactsFromLearnings w (rr_learnings research)
                                               [position contact] = Ok []))) ->
  verifyContact w contact originalQuery (verificationDepth criteria)
  = Ok (contact, [])
  /\ fold_left (auditStep w originalQuery criteria) (contact :: remaining) st
     = fold_left (auditStep w originalQuery criteria) remaining
                 (mapSet (email contact) contact (fst st), snd st).
Proof.
  intro Hfail.
  assert (verifyContact w contact originalQuery (verificationDepth criteria)
          = Ok (contact, [])) as Hverify.
  { unfold verifyContact.
    destruct Hfail as [[e He] | [research [Hr [[e He] | He]]]].
    - now rewrite He.
    - rewrite Hr. simpl. now rewrite He.
    - rewrite Hr. simpl. now rewrite He. }
  split; [assumption |].
  simpl. unfold auditStep at 2. rewrite Hverify. now rewrite app_nil_r.
Qed.

Lemma failed_verification_is_local_witness :
  ((exists e,
       deepResearch Fixtures.worldExtractionFails
                    (verificationQuery Fixtures.john "test") 2 1 [] [] = Err e)
   \/ (exists research,
          deepResearch Fixtures.worldExtractionFails
                       (verificationQuery Fixtures.john "test") 2 1 [] []
          = Ok research
          /\ ((exists e,
                  generateContactsFromLearnings
                    Fixtures.worldExtractionFails (rr_learnings research)
                    [position Fixtures.john] = Err e)
              \/ generateContactsFromLearnings
                   Fixtures.worldExtractionFails (rr_learnings research)
                   [position Fixtures.john] = Ok [])))
  /\ verifyContact Fixtures.worldExtractionFails Fixtures.john "test" 1
     = Ok (Fixtures.john, [])
  /\ fold_left
       (auditStep Fixtures.worldExtractionFails "test"
                  {| sampleSize := 2; verificationDepth := 1 |})
       [Fixtures.john; Fixtures.jane]
       (initMap [Fixtures.john; Fixtures.jane], [])
     = fold_left
         (auditStep Fixtures.worldExtractionFails "test"
                    {| sampleSize := 2; verificationDepth := 1 |})
         [Fixtures.jane]
         (mapSet (email Fixtures.john) Fixtures.john
                 (initMap [Fixtures.john; Fixtures.jane]), []).
Proof.
  assert ((exists e,
              deepResearch Fixtures.worldExtractionFails
                           (verificationQuery Fixtures.john "test") 2 1 [] []
              = Err e)
          \/ (exists research,
                 deepResearch Fixtures.worldExtractionFails
                              (verificationQuery Fixtures.john "test") 2 1 [] []
                 = Ok research
                 /\ ((exists e,
                         generateContactsFromLearnings
                           Fixtures.worldExtractionFails (rr_learnings research)
                           [position Fixtures.john] = Err e)
                     \/ generateContactsFromLearnings
                          Fixtures.worldExtractionFails (rr_learnings research)
                          [position Fixtures.john] = Ok []))) as Hfail.
  { right.
    exists {| rr_learnings := ["learning one"%string];
              rr_visitedUrls := ["https://a.example/"%string] |}.
    split; [vm_compute; reflexivity |].
    left. exists "AI API Error"%string. reflexivity. }
  split; [exact Hfail |].
  exact (@failed_verification_is_local Fixtures.worldExtractionFails
           Fixtures.john "test"%string
           {| sampleSize := 2; verificationDepth := 1 |}
           (initMap [Fixtures.john; Fixtures.jane], [])
           [Fixtures.jane] Hfail).
Defined.

(** Every search of the verification research times out: the research ends
    with no learning, no contact is extracted, the record stands. *)
Example verifyContact_search_down :
  verifyContact Fixtures.worldSearchDown Fixtures.john "test" 2
  = Ok (Fixtures.john, []).
Proof. vm_compute. reflexivity. Qed.

(** A verification that finds a longer title corrects the position and keeps
    the email. *)
Example verifyContact_new_title :
  verifyContact Fixtures.worldNewTitle Fixtures.john "test" 1
  = Ok (Fixtures.johnNewTitle,
        [ {| corr_email := "john.doe@techcorp.com";
             corr_field := "position";
             corr_before := "CEO";
             corr_after := "Chief Executive Officer";
             corr_reason := "Verification research found updated information" |} ]%string).
Proof. vm_compute. reflexivity. Qed.

(** The audit as a whole never rejects. *)
Lemma auditContacts_never_rejects (w : Collaborators) contacts criteria
      originalQuery :
  exists res, auditContacts w contacts criteria originalQuery = Ok res.
Proof.
  unfold auditContacts. destruct contacts; [eauto |].
  destruct (bypass w); eauto.
Qed.

(** C6.  When the emails of the records are pairwise distinct, the verified
    list has the length of the records list and every record that was not
    sampled stands in it unchanged, at its position; whatever the criteria,
    also with [sampleSize >= records.length]. *)
Theorem auditContacts_keeps_every_record (w : Collaborators)
        (contacts : list Contact) (criteria : AuditingCriteria)
        (originalQuery : string) :
  (forall (U : Type) (l : list U), Permutation (shuffle w l) l) ->
  NoDup (map email contacts) ->
  exists res,
    auditContacts w contacts criteria originalQuery = Ok res
    /\ List.length (verifiedContacts res) = List.length contacts
    /\ forall i c,
        nth_error contacts i = Some c ->
        ~ In c (getRandomSample w contacts (sampleSize criteria)) ->
        nth_error (verifiedContacts res) i = Some c.
Proof.
  intros Hperm Hnd. unfold auditContacts.
  destruct contacts as [| c0 cs] eqn:Hcontacts.
  - eexists. split; [reflexivity |]. split; [reflexivity |].
    intros [| i] c H; discriminate.
  - rewrite <- Hcontacts in *. clear Hcontacts c0 cs.
    destruct (bypass w).
    + eexists. split; [reflexivity |]. simpl. auto.
    + eexists. split; [reflexivity |]. simpl.
      set (sample := getRandomSample w contacts (sampleSize criteria)).
      assert (forall s, In s sample -> In s contacts) as Hsub
          by (intros s Hs; eapply getRandomSample_incl; [exact Hperm | exact Hs]).
      split.
      * unfold mapValues. rewrite length_map.
        rewrite <- (length_map fst), auditLoop_keys; simpl.
        -- now rewrite initMap_distinct, !length_map.
        -- intros s Hs. rewrite initMap_distinct by assumption.
           rewrite map_map. simpl. apply in_map. now apply Hsub.
      * intros i c Hi Hns. unfold mapValues.
        rewrite nth_error_map.
        rewrite (@auditLoop_untouched w originalQuery criteria sample i
                   (email c) c); [reflexivity | |].
        -- intros s Hs Heq. apply Hns.
           rewrite <- (@NoDup_map_injective _ _ email contacts s c); auto.
           eapply nth_error_In; eassumption.
        -- simpl. rewrite initMap_distinct by assumption.
           rewrite nth_error_map, Hi. reflexivity.
Qed.

Lemma auditContacts_keeps_every_record_witness :
  (forall (U : Type) (l : list U),
      Permutation (shuffle Fixtures.worldNewTitle l) l)
  /\ NoDup (map email [Fixtures.john; Fixtures.jane])
  /\ exists res,
      auditContacts Fixtures.worldNewTitle [Fixtures.john; Fixtures.jane]
                    {| sampleSize := 1; verificationDepth := 1 |} "test"
      = Ok res
      /\ List.length (verifiedContacts res)
         = List.length [Fixtures.john; Fixtures.jane]
      /\ forall i c,
          nth_error [Fixtures.john; Fixtures.jane] i = Some c ->
          ~ In c (getRandomSample Fixtures.worldNewTitle
                                  [Fixtures.john; Fixtures.jane]
                                  (sampleSize {| sampleSize := 1;
                                                 verificationDepth := 1 |})) ->
          nth_error (verifiedContacts res) i = Some c.
Proof.
  assert (NoDup (map email [Fixtures.john; Fixtures.jane])) as Hnd.
  { simpl. constructor; [simpl; intuition discriminate |].
    constructor; [simpl; tauto | constructor]. }
  split; [intros U l; apply Permutation_sym, Permutation_rev |].
  split; [exact Hnd |].
  apply (@auditContacts_keeps_every_record Fixtures.worldNewTitle
           [Fixtures.john; Fixtures.jane]
           {| sampleSize := 1; verificationDepth := 1 |} "test"%string).
  - intros U l. apply Permutation_sym, Permutation_rev.
  - exact Hnd.
Defined.

(* ================================================================== *)
(** * The text chunker                                                  *)
(* ================================================================== *)

Lemma length_string_of_list_ascii (l : list ascii) :
  String.length (string_of_list_ascii l) = List.length l.
Proof. induction l as [| c l IH]; simpl; [reflexivity | now rewrite IH]. Qed.

Lemma lastn_length (k : nat) (l : list ascii) :
  (List.length (lastn k l) <= k)%nat.
Proof. unfold lastn. rewrite length_skipn. lia. Qed.

(** The units of a split concatenate to what was read. *)
Lemma splitAfter_concat (sep : Separator) (text cur : list ascii) :
  List.concat (splitAfter sep cur text) = cur ++ text.
Proof.
  revert cur. induction text as [| c text IH]; simpl; intro cur.
  - destruct cur; simpl; [reflexivity | now rewrite !app_nil_r].
  - destruct (endsUnit sep (cur ++ [c])); simpl; rewrite IH; simpl;
      now rewrite <- app_assoc.
Qed.

Lemma splitUnits_concat (seps : list Separator) (size : nat) :
  forall text, List.concat (splitUnits seps size text) = text.
Proof.
  induction seps as [| sep finer IH]; simpl; intro text.
  - apply (splitAfter_concat Character text []).
  - rewrite <- (splitAfter_concat sep text []) at 2.
    induction (splitAfter sep [] text) as [| piece pieces IHp]; simpl;
      [reflexivity |].
    rewrite concat_app, IHp.
    destruct (List.length piece <=? size)%nat; simpl;
      [now rewrite app_nil_r | now rewrite IH].
Qed.

(** Cut at every character, the units are single characters. *)
Lemma splitAfter_Character (text : list ascii) :
  Forall (fun u => List.length u = 1%nat) (splitAfter Character [] text).
Proof.
  induction text as [| c text IH]; simpl; constructor; auto.
Qed.

(** Every unit fits the chunk size. *)
Lemma splitUnits_fit (seps : list Separator) (size : nat) :
  (1 <= size)%nat ->
  forall text,
    Forall (fun u => (List.length u <= size)%nat) (splitUnits seps size text).
Proof.
  intro Hsize. induction seps as [| sep finer IH]; simpl; intro text.
  - eapply Forall_impl; [| apply splitAfter_Character].
    simpl. intros u Hu. lia.
  - apply Forall_flat_map, Forall_forall. intros piece _.
    destruct (List.length piece <=? size)%nat eqn:Hfit.
    + constructor; [now apply Nat.leb_le | constructor].
    + apply IH.
Qed.

(** Packing units that fit gives chunks that exceed the chunk size by the
    carried overlap at most. *)
Lemma packUnits_fit (size overlap : nat) (units : list (list ascii)) :
  Forall (fun u => (List.length u <= size)%nat) units ->
  forall cur,
    (List.length cur <= size + overlap)%nat ->
    Forall (fun chunk => (List.length chunk <= size + overlap)%nat)
           (packUnits size overlap cur units).
Proof.
  induction 1 as [| u rest Hu Hrest IH]; simpl; intros cur Hcur.
  - destruct cur; constructor; auto.
  - destruct (List.length cur + List.length u <=? size)%nat eqn:Hfit.
    + apply IH. rewrite length_app. apply Nat.leb_le in Hfit. lia.
    + destruct cur as [| c cur'] eqn:Hc.
      * apply IH. lia.
      * rewrite <- Hc in *. constructor; [assumption |].
        apply IH. rewrite length_app.
        pose proof (lastn_length overlap cur). lia.
Qed.

(** The chunks of a text that does not fit [size]. *)
Lemma splitText_packed_fit (size overlap : nat) (text : list ascii) :
  (1 <= size)%nat ->
  Forall (fun chunk => (List.length chunk <= size + overlap)%nat)
         (packUnits size overlap [] (splitUnits separators size text)).
Proof.
  intro Hsize. apply packUnits_fit; [now apply splitUnits_fit | simpl; lia].
Qed.

(** Packing loses no unit: a non-empty sequence of non-empty units gives at
    least one chunk. *)
Lemma packUnits_nonempty (size overlap : nat) (units : list (list ascii)) :
  forall cur,
    cur <> [] \/ (exists u, In u units /\ u <> []) ->
    packUnits size overlap cur units <> [].
Proof.
  induction units as [| u rest IH]; simpl; intros cur H.
  - destruct H as [H | [u [[] _]]]. destruct cur; congruence.
  - destruct (List.length cur + List.length u <=? size)%nat.
    + apply IH. destruct H as [H | [u' [[-> | Hin] Hne]]].
      * left. destruct cur; [congruence | discriminate].
      * left. destruct cur; simpl; [assumption | discriminate].
      * right. eauto.
    + destruct cur as [| c cur'].
      * apply IH. destruct H as [H | [u' [[-> | Hin] Hne]]];
          [congruence | now left | right; eauto].
      * discriminate.
Qed.

(** A chunker that was constructed has the parameters it was given, and its
    overlap is below its chunk size. *)
Lemma newSplitter_Ok_inv (size overlap : Z) (sp : RecursiveCharacterTextSplitter) :
  newSplitter size overlap = Ok sp ->
  sp = {| chunkSize := size; chunkOverlap := overlap |} /\ (overlap < size)%Z.
Proof.
  unfold newSplitter. destruct (overlap >=? size)%Z eqn:Hge; [discriminate |].
  intro H. inversion H. split; [reflexivity |].
  rewrite Z.geb_leb in Hge. now apply Z.leb_gt in Hge.
Qed.

(** Every non-empty text gives at least one chunk. *)
Lemma splitText_nonempty (sp : RecursiveCharacterTextSplitter) (s : string) :
  s <> EmptyString -> splitText sp s <> [].
Proof.
  destruct s as [| c s]; [congruence |]. intros _.
  unfold splitText. cbv beta iota.
  destruct (Z.of_nat (String.length (String c s)) <=? chunkSize sp)%Z;
    [discriminate |].
  intro Hnil. apply map_eq_nil in Hnil. revert Hnil.
  apply packUnits_nonempty. right.
  pose proof (splitUnits_concat separators (Z.to_nat (chunkSize sp))
                (list_ascii_of_string (String c s))) as Hcat.
  induction (splitUnits separators (Z.to_nat (chunkSize sp))
                        (list_ascii_of_string (String c s))) as [| u us IH].
  - discriminate.
  - destruct u as [| a u].
    + destruct IH as [u' [Hin Hne]]; [exact Hcat |].
      exists u'. split; [now right | assumption].
    + exists (a :: u). split; [now left | discriminate].
Qed.

(** C9.  The constructor fails with the configuration error exactly when
    [chunkOverlap >= chunkSize]: the error is the outcome of the construction
    itself, and with [chunkOverlap < chunkSize] the chunker is constructed
    with the parameters given. *)
Theorem newSplitter_checks_overlap (size overlap : Z) :
  ((size <= overlap)%Z -> newSplitter size overlap = Err ConfigurationError)
  /\ ((overlap < size)%Z ->
      newSplitter size overlap
      = Ok {| chunkSize := size; chunkOverlap := overlap |}).
Proof.
  unfold newSplitter. split; intro H.
  - destruct (overlap >=? size)%Z eqn:Hge; [reflexivity |].
    rewrite Z.geb_leb in Hge. apply Z.leb_gt in Hge. lia.
  - destruct (overlap >=? size)%Z eqn:Hge; [| reflexivity].
    rewrite Z.geb_leb in Hge. apply Z.leb_le in Hge. lia.
Qed.

Lemma newSplitter_checks_overlap_witness :
  ((10 <= 10)%Z /\ newSplitter 10 10 = Err ConfigurationError)
  /\ ((10 <= 15)%Z /\ newSplitter 10 15 = Err ConfigurationError)
  /\ ((2 < 10)%Z
      /\ newSplitter 10 2 = Ok {| chunkSize := 10; chunkOverlap := 2 |}).
Proof.
  split; [split; [lia | apply (proj1 (newSplitter_checks_overlap 10 10)); lia] |].
  split; [split; [lia | apply (proj1 (newSplitter_checks_overlap 10 15)); lia] |].
  split; [lia | apply (proj2 (newSplitter_checks_overlap 10 2)); lia].
Defined.




(** A text longer than the chunk size is cut into chunks that overlap. *)
Example splitText_alphabet :
  splitText {| chunkSize := 10; chunkOverlap := 2 |}
            "abcdefghijklmnopqrstuvwxyz"
  = ["abcdefghij"; "ijklmnopqr"; "qrstuvwxyz"]%string.
Proof. vm_compute. reflexivity. Qed.

(** Words are kept whole when they fit. *)
Example splitText_words :
  splitText {| chunkSize := 10; chunkOverlap := 0 |}
            "This is a test string"
  = ["This is a "; "test "; "string"]%string.
Proof. vm_compute. reflexivity. Qed.

(* ================================================================== *)
(** * Query generation and the recursion of [deepResearch]              *)
(* ================================================================== *)

(** [slice(0, e)] keeps a prefix: as many elements as [e] says, or all but
    the last [-e] when [e] is negative. *)
Lemma slice0_prefix (A : Type) (l : list A) (e : Z) :
  exists rest,
    l = slice0 l e ++ rest
    /\ List.length (slice0 l e)
       = if (e <? 0)%Z then (List.length l - Z.to_nat (- e))%nat
         else Nat.min (Z.to_nat e) (List.length l).
Proof.
  unfold slice0.
  exists (skipn (Z.to_nat (if (e <? 0)%Z then Z.of_nat (List.length l) + e else e)) l).
  split; [now rewrite firstn_skipn |].
  rewrite length_firstn.
  destruct (e <? 0)%Z eqn:Hneg; [| reflexivity].
  apply Z.ltb_lt in Hneg. lia.
Qed.

(** [generateSerpQueries] answers with a prefix of what the language model
    proposed: at most [numQueries] queries when [numQueries >= 0]; when
    [numQueries] is negative, all the proposed queries but the last
    [-numQueries]. *)
Theorem generateSerpQueries_prefix (w : Collaborators) (query : string)
        (numQueries : Z) (learnings : list string) (queries : list SerpQuery) :
  generateSerpQueries w query numQueries learnings = Ok queries ->
  exists proposed rest,
    llmSerpQueries w query learnings numQueries = Ok proposed
    /\ proposed = queries ++ rest
    /\ List.length queries
       = if (numQueries <? 0)%Z
         then (List.length proposed - Z.to_nat (- numQueries))%nat
         else Nat.min (Z.to_nat numQueries) (List.length proposed).
Proof.
  unfold generateSerpQueries.
  destruct (llmSerpQueries w query learnings numQueries) as [proposed | e];
    simpl; [| discriminate].
  intro H. inversion H; subst queries. clear H.
  destruct (slice0_prefix proposed numQueries) as [rest [Hsplit Hlen]].
  exists proposed, rest. auto.
Qed.

Lemma generateSerpQueries_prefix_witness :
  generateSerpQueries Fixtures.worldSiblings "topic" 1 [] = Ok [Fixtures.queryOne]
  /\ exists proposed rest,
      llmSerpQueries Fixtures.worldSiblings "topic" [] 1 = Ok proposed
      /\ proposed = [Fixtures.queryOne] ++ rest
      /\ List.length [Fixtures.queryOne]
         = if (1 <? 0)%Z
           then (List.length proposed - Z.to_nat (- 1))%nat
           else Nat.min (Z.to_nat 1) (List.length proposed).
Proof.
  split; [reflexivity |].
  apply (@generateSerpQueries_prefix Fixtures.worldSiblings "topic"%string 1 []
           [Fixtures.queryOne]).
  reflexivity.
Defined.

(** [generateFeedback] answers with a prefix of the questions the language
    model asked, cut the same way. *)
Theorem generateFeedback_prefix
        (llmQuestions : string -> Z -> Result (list string))
        (query : string) (numQuestions : Z) (questions : list string) :
  generateFeedback llmQuestions query numQuestions = Ok questions ->
  exists asked rest,
    llmQuestions query numQuestions = Ok asked
    /\ asked = questions ++ rest
    /\ List.length questions
       = if (numQuestions <? 0)%Z
         then (List.length asked - Z.to_nat (- numQuestions))%nat
         else Nat.min (Z.to_nat numQuestions) (List.length asked).
Proof.
  unfold generateFeedback.
  destruct (llmQuestions query numQuestions) as [asked | e]; simpl;
    [| discriminate].
  intro H. inversion H; subst questions. clear H.
  destruct (slice0_prefix asked numQuestions) as [rest [Hsplit Hlen]].
  exists asked, rest. auto.
Qed.

Lemma generateFeedback_prefix_witness :
  generateFeedback (fun _ _ => Ok ["who"; "where"; "when"; "why"]%string)
                   "topic" 3
  = Ok ["who"; "where"; "when"]%string
  /\ exists asked rest,
      (fun (_ : string) (_ : Z) => Ok ["who"; "where"; "when"; "why"]%string)
        "topic"%string 3%Z = Ok asked
      /\ asked = ["who"; "where"; "when"]%string ++ rest
      /\ List.length ["who"; "where"; "when"]%string
         = if (3 <? 0)%Z
           then (List.length asked - Z.to_nat (- 3))%nat
           else Nat.min (Z.to_nat 3) (List.length asked).
Proof.
  split; [reflexivity |].
  apply (@generateFeedback_prefix
           (fun _ _ => Ok ["who"; "where"; "when"; "why"]%string)
           "topic"%string 3 ["who"; "where"; "when"]%string).
  reflexivity.
Defined.

(** The nesting of [deepResearch] is bounded by its depth: whatever fuel at
    least [depth - 1] the recursion is given, it settles, and with one and
    the same outcome. *)
Theorem deepResearch_fuel_independent (w : Collaborators) (fuel : nat) :
  forall query breadth depth learnings visitedUrls,
    (Z.to_nat depth <= S fuel)%nat ->
    deepResearch_fuel w fuel query breadth depth learnings visitedUrls
    = Some (deepResearch w query breadth depth learnings visitedUrls).
Proof.
  induction fuel as [| fuel IH]; intros query breadth depth learnings
    visitedUrls Hfuel; rewrite deepResearch_unfold; simpl;
    (destruct (bypass w); [reflexivity |]);
    (destruct (generateSerpQueries w query breadth learnings) as [qs | e];
     [simpl | reflexivity]).
  - replace (map (researchBranch w (fun _ _ _ _ _ => None) breadth depth
                                 learnings visitedUrls) qs)
      with (map (dispatchedBranch w breadth depth learnings visitedUrls) qs).
    + destruct (promiseAll_settles
                  (map (dispatchedBranch w breadth depth learnings visitedUrls)
                       qs)) as [rs Hrs].
      * intros p Hp. apply in_map_iff in Hp. destruct Hp as [sq [<- _]].
        apply dispatchedBranch_settles.
      * rewrite Hrs. now destruct rs.
    + apply map_ext. intro sq. apply researchBranch_ext. lia.
  - replace (map (researchBranch w (deepResearch_fuel w fuel) breadth depth
                                 learnings visitedUrls) qs)
      with (map (dispatchedBranch w breadth depth learnings visitedUrls) qs).
    + destruct (promiseAll_settles
                  (map (dispatchedBranch w breadth depth learnings visitedUrls)
                       qs)) as [rs Hrs].
      * intros p Hp. apply in_map_iff in Hp. destruct Hp as [sq [<- _]].
        apply dispatchedBranch_settles.
      * rewrite Hrs. now destruct rs.
    + apply map_ext. intro sq. apply researchBranch_ext.
      intros Hd q b l v. symmetry. apply IH. lia.
Qed.

Lemma deepResearch_fuel_independent_witness :
  (Z.to_nat 3 <= S 7)%nat
  /\ deepResearch_fuel Fixtures.worldSiblings 7 "topic" 2 3 [] []
     = Some (deepResearch Fixtures.worldSiblings "topic" 2 3 [] []).
Proof.
  split; [simpl; lia |].
  apply (@deepResearch_fuel_independent Fixtures.worldSiblings 7
           "topic"%string 2 3 [] []).
  simpl. lia.
Defined.

(* ================================================================== *)
(** * What [deepResearch] returns                                       *)
(* ================================================================== *)

Lemma compact_In (l : list (option string)) (x : string) :
  In x (compact l) -> In (Some x) l.
Proof.
  induction l as [| [s |] l IH]; simpl; [tauto | |].
  - destruct (truthy s); simpl; intuition congruence.
  - intuition.
Qed.

(** Every value [Promise.all] is fulfilled with is the value of one of the
    promises. *)
Lemma promiseAll_Ok_In (A B : Type) (f : A -> option (Result B)) (l : list A)
      (results : list B) (res : B) :
  promiseAll (map f l) = Some (Ok results) ->
  In res results ->
  exists a, In a l /\ f a = Some (Ok res).
Proof.
  intros Hall Hres. apply promiseAll_Ok in Hall.
  assert (In (Some (Ok res)) (map f l)) as Hmem.
  { rewrite Hall. apply (in_map (fun b : B => Some (Ok b))). assumption. }
  apply in_map_iff in Hmem. destruct Hmem as [a [Ha Hin]]. eauto.
Qed.

Section ResearchInvariant.

Variable w : Collaborators.

(** A property of learnings and a property of URLs that every answer of the
    extraction, respectively of the search, satisfies. *)
Variables P Q : string -> Prop.

Hypothesis extraction_P :
  forall query contents n batch,
    llmLearnings w query contents n = Ok batch -> Forall P (lb_learnings batch).

Hypothesis search_Q :
  forall query result,
    firecrawlSearch w query = Ok result ->
    Forall Q (compact (map si_url result)).

Lemma mergeResults_Forall (results : list ResearchResult) :
  Forall (fun res => Forall P (rr_learnings res)
                     /\ Forall Q (rr_visitedUrls res)) results ->
  Forall P (rr_learnings (mergeResults results))
  /\ Forall Q (rr_visitedUrls (mergeResults results)).
Proof.
  intro H. rewrite Forall_forall in H.
  split; apply Forall_forall; intros x Hx; simpl in Hx;
    apply dedupe_In, in_flat_map in Hx; destruct Hx as [res [Hres Hx]];
    destruct (H res Hres) as [HP HQ]; rewrite Forall_forall in HP, HQ; auto.
Qed.

Lemma researchBranch_Forall recurse breadth depth learnings visitedUrls sq res :
  (forall q b d l v r,
      Forall P l -> Forall Q v -> recurse q b d l v = Some (Ok r) ->
      Forall P (rr_learnings r) /\ Forall Q (rr_visitedUrls r)) ->
  Forall P learnings -> Forall Q visitedUrls ->
  researchBranch w recurse breadth depth learnings visitedUrls sq = Some (Ok res) ->
  Forall P (rr_learnings res) /\ Forall Q (rr_visitedUrls res).
Proof.
  intros Hrec HP HQ. unfold researchBranch.
  destruct (firecrawlSearch w (sq_query sq)) as [result | e] eqn:Hsearch.
  - unfold processSerpResult.
    destruct (llmLearnings w _ _ _) as [batch | e] eqn:Hbatch.
    + assert (Forall P (learnings ++ lb_learnings batch)) as HP'
          by (apply Forall_app; split; [assumption | eapply extraction_P; eassumption]).
      assert (Forall Q (visitedUrls ++ compact (map si_url result))) as HQ'
          by (apply Forall_app; split; [assumption | eapply search_Q; eassumption]).
      destruct (depth - 1 >? 0)%Z.
      * now apply Hrec.
      * intro H. inversion H. simpl. auto.
    + intro H. inversion H. simpl. auto.
  - intro H. inversion H. simpl. auto.
Qed.

Lemma deepResearch_fuel_Forall (fuel : nat) :
  bypass w = false ->
  forall query breadth depth learnings visitedUrls r,
    Forall P learnings -> Forall Q visitedUrls ->
    deepResearch_fuel w fuel query breadth depth learnings visitedUrls
    = Some (Ok r) ->
    Forall P (rr_learnings r) /\ Forall Q (rr_visitedUrls r).
Proof.
  intro Hby.
  induction fuel as [| fuel IH]; intros query breadth depth learnings
    visitedUrls r HP HQ; simpl; rewrite Hby;
    (destruct (generateSerpQueries w query breadth learnings) as [qs | e];
     [| discriminate]);
    match goal with
    | |- match ?p with _ => _ end = _ -> _ =>
        destruct p as [[results | e] |] eqn:Hall; try discriminate
    end;
    intro H; inversion H; apply mergeResults_Forall, Forall_forall;
    intros res Hres;
    destruct (@promiseAll_Ok_In _ _ _ _ _ res Hall Hres) as [sq [_ Hsq]];
    (eapply researchBranch_Forall; [| exact HP | exact HQ | exact Hsq]).
  - intros; discriminate.
  - exact IH.
Qed.

End ResearchInvariant.

(** Outside bypass mode [deepResearch] invents nothing: every learning it
    returns was passed in or was answered by an extraction of learnings, and
    every URL it returns was passed in or belongs to a search result. *)
Theorem deepResearch_provenance (w : Collaborators) query breadth depth
        learnings visitedUrls r :
  bypass w = false ->
  deepResearch w query breadth depth learnings visitedUrls = Ok r ->
  (forall x, In x (rr_learnings r) ->
     In x learnings
     \/ exists q contents n batch,
         llmLearnings w q contents n = Ok batch /\ In x (lb_learnings batch))
  /\ (forall u, In u (rr_visitedUrls r) ->
        In u visitedUrls
        \/ exists q result,
            firecrawlSearch w q = Ok result /\ In (Some u) (map si_url result)).
Proof.
  intros Hby Hr.
  pose proof (deepResearch_settled w query breadth depth learnings visitedUrls)
    as Hfuel.
  rewrite Hr in Hfuel.
  destruct (@deepResearch_fuel_Forall w
              (fun x => In x learnings
                        \/ exists q contents n batch,
                            llmLearnings w q contents n = Ok batch
                            /\ In x (lb_learnings batch))
              (fun u => In u visitedUrls
                        \/ exists q result,
                            firecrawlSearch w q = Ok result
                            /\ In (Some u) (map si_url result)))
    with (fuel := Z.to_nat depth) (query := query) (breadth := breadth)
         (depth := depth) (learnings := learnings) (visitedUrls := visitedUrls)
         (r := r) as [HP HQ]; try assumption.
  - intros q contents n batch Hb. apply Forall_forall. intros x Hx.
    right. eauto 6.
  - intros q result Hs. apply Forall_forall. intros u Hu.
    right. exists q, result. split; [assumption | now apply compact_In].
  - apply Forall_forall. auto.
  - apply Forall_forall. auto.
  - rewrite Forall_forall in HP, HQ. auto.
Qed.

Lemma deepResearch_provenance_witness :
  bypass Fixtures.worldSiblings = false
  /\ deepResearch Fixtures.worldSiblings "topic" 2 2 ["known"%string] []
     = Ok {| rr_learnings := ["known"; "learning one"]%string;
             rr_visitedUrls := ["https://a.example/"%string] |}
  /\ (forall x, In x ["known"; "learning one"]%string ->
        In x ["known"%string]
        \/ exists q contents n batch,
            llmLearnings Fixtures.worldSiblings q contents n = Ok batch
            /\ In x (lb_learnings batch))
  /\ (forall u, In u ["https://a.example/"%string] ->
        In u []
        \/ exists q result,
            firecrawlSearch Fixtures.worldSiblings q = Ok result
            /\ In (Some u) (map si_url result)).
Proof.
  split; [reflexivity |]. split; [vm_compute; reflexivity |].
  apply (@deepResearch_provenance Fixtures.worldSiblings "topic"%string 2 2
           ["known"%string] []
           {| rr_learnings := ["known"; "learning one"]%string;
              rr_visitedUrls := ["https://a.example/"%string] |}).
  - reflexivity.
  - vm_compute. reflexivity.
Defined.

Lemma flat_map_nothing (A B C : Type) (f : B -> list C) (b : B) (l : list A) :
  f b = [] -> flat_map f (map (fun _ => b) l) = [].
Proof.
  intro Hb. induction l as [| a l IH]; simpl; [reflexivity |].
  now rewrite Hb, IH.
Qed.

(** When every search of a call fails, the call is fulfilled with the empty
    result: the learnings and URLs that were passed in are not returned. *)
Theorem deepResearch_all_searches_fail (w : Collaborators) query breadth depth
        learnings visitedUrls serpQueries :
  bypass w = false ->
  generateSerpQueries w query breadth learnings = Ok serpQueries ->
  (forall sq, In sq serpQueries ->
     exists e, firecrawlSearch w (sq_query sq) = Err e) ->
  deepResearch w query breadth depth learnings visitedUrls = Ok emptyResult.
Proof.
  intros Hby Hqs Hfail. rewrite deepResearch_unfold, Hby, Hqs. simpl.
  replace (map (dispatchedBranch w breadth depth learnings visitedUrls)
               serpQueries)
    with (map (fun res : ResearchResult => Some (Ok res))
              (map (fun _ => emptyResult) serpQueries)).
  - rewrite promiseAll_all_Ok. unfold mergeResults.
    now rewrite !flat_map_nothing.
  - rewrite map_map. apply map_ext_in. intros sq Hsq.
    destruct (Hfail sq Hsq) as [e He]. symmetry.
    eapply researchBranch_search_fails. eassumption.
Qed.

Lemma deepResearch_all_searches_fail_witness :
  bypass Fixtures.worldSearchDown = false
  /\ generateSerpQueries Fixtures.worldSearchDown "topic" 2 ["known"%string]
     = Ok [Fixtures.queryOne; Fixtures.queryTwo]
  /\ (forall sq, In sq [Fixtures.queryOne; Fixtures.queryTwo] ->
        exists e, firecrawlSearch Fixtures.worldSearchDown (sq_query sq) = Err e)
  /\ deepResearch Fixtures.worldSearchDown "topic" 2 3 ["known"%string]
                  ["https://known.example/"%string]
     = Ok emptyResult.
Proof.
  assert (forall sq, In sq [Fixtures.queryOne; Fixtures.queryTwo] ->
            exists e,
              firecrawlSearch Fixtures.worldSearchDown (sq_query sq) = Err e)
    as Hfail by (intros sq _; eexists; reflexivity).
  split; [reflexivity |]. split; [reflexivity |]. split; [exact Hfail |].
  apply (@deepResearch_all_searches_fail Fixtures.worldSearchDown
           "topic"%string 2 3 ["known"%string]
           ["https://known.example/"%string]
           [Fixtures.queryOne; Fixtures.queryTwo]);
    [reflexivity | reflexivity | exact Hfail].
Defined.

(** At depth 1 or below, a branch whose search and extraction succeed brings
    into the result of the call the learnings and URLs that were passed in,
    the learnings it extracted and the URLs it found. *)
Theorem deepResearch_leaf_accumulates (w : Collaborators) query breadth depth
        learnings visitedUrls serpQueries sq result batch :
  bypass w = false ->
  (depth <= 1)%Z ->
  generateSerpQueries w query breadth learnings = Ok serpQueries ->
  In sq serpQueries ->
  firecrawlSearch w (sq_query sq) = Ok result ->
  processSerpResult w (sq_query sq) result (ceilHalf breadth) = Ok batch ->
  exists r,
    deepResearch w query breadth depth learnings visitedUrls = Ok r
    /\ incl (learnings ++ lb_learnings batch) (rr_learnings r)
    /\ incl (visitedUrls ++ compact (map si_url result)) (rr_visitedUrls r).
Proof.
  intros Hby Hd Hqs Hin Hsearch Hbatch.
  destruct (@deepResearch_all_branches_Ok w query breadth depth learnings
              visitedUrls serpQueries Hby Hqs) as [results [Hmap Hres]].
  { intros sq' _. unfold dispatchedBranch. now apply researchBranch_leaf. }
  exists (mergeResults results). split; [assumption |].
  assert (In {| rr_learnings := learnings ++ lb_learnings batch;
                rr_visitedUrls := visitedUrls ++ compact (map si_url result) |}
             results) as Hmem.
  { assert (In (Some (Ok {| rr_learnings := learnings ++ lb_learnings batch;
                            rr_visitedUrls :=
                              visitedUrls ++ compact (map si_url result) |}))
               (map (dispatchedBranch w breadth depth learnings visitedUrls)
                    serpQueries)) as H.
    { apply in_map_iff. exists sq. split; [| assumption].
      unfold dispatchedBranch, researchBranch. rewrite Hsearch, Hbatch.
      destruct (depth - 1 >? 0)%Z eqn:Hgt; [| reflexivity].
      apply Z.gtb_lt in Hgt. lia. }
    rewrite Hmap in H. apply in_map_iff in H.
    destruct H as [res [Heq Hres']]. now inversion Heq; subst. }
  exact (mergeResults_keeps _ _ Hmem).
Qed.

Lemma deepResearch_leaf_accumulates_witness :
  bypass Fixtures.worldTimeout = false
  /\ (1 <= 1)%Z
  /\ generateSerpQueries Fixtures.worldTimeout "topic" 2 ["known"%string]
     = Ok [Fixtures.queryOne; Fixtures.queryTwo]
  /\ In Fixtures.queryTwo [Fixtures.queryOne; Fixtures.queryTwo]
  /\ firecrawlSearch Fixtures.worldTimeout (sq_query Fixtures.queryTwo)
     = Ok [Fixtures.pageA]
  /\ processSerpResult Fixtures.worldTimeout (sq_query Fixtures.queryTwo)
                       [Fixtures.pageA] (ceilHalf 2)
     = Ok Fixtures.batchOne
  /\ exists r,
      deepResearch Fixtures.worldTimeout "topic" 2 1 ["known"%string] []
      = Ok r
      /\ incl (["known"%string] ++ lb_learnings Fixtures.batchOne)
              (rr_learnings r)
      /\ incl ([] ++ compact (map si_url [Fixtures.pageA])) (rr_visitedUrls r).
Proof.
  split; [reflexivity |]. split; [lia |]. split; [reflexivity |].
  split; [simpl; tauto |]. split; [reflexivity |]. split; [reflexivity |].
  apply (@deepResearch_leaf_accumulates Fixtures.worldTimeout "topic"%string
           2 1 ["known"%string] [] [Fixtures.queryOne; Fixtures.queryTwo]
           Fixtures.queryTwo [Fixtures.pageA] Fixtures.batchOne);
    [reflexivity | lia | reflexivity | simpl; tauto | reflexivity | reflexivity].
Defined.

(** The content of the merged result does not depend on the order of the
    branch results: merging a rearrangement of the results gives a
    rearrangement of the merged learnings and of the merged URLs. *)
Theorem mergeResults_order_insensitive (results results' : list ResearchResult) :
  Permutation results results' ->
  Permutation (rr_learnings (mergeResults results))
              (rr_learnings (mergeResults results'))
  /\ Permutation (rr_visitedUrls (mergeResults results))
                 (rr_visitedUrls (mergeResults results')).
Proof.
  intro Hperm. split; simpl;
    (apply NoDup_Permutation; [apply dedupe_NoDup | apply dedupe_NoDup |]);
    intro x; rewrite !dedupe_In, !in_flat_map;
    split; intros [res [Hres Hx]]; exists res; split; try assumption.
  - eapply Permutation_in; eassumption.
  - eapply Permutation_in; [apply Permutation_sym |]; eassumption.
  - eapply Permutation_in; eassumption.
  - eapply Permutation_in; [apply Permutation_sym |]; eassumption.
Qed.

Lemma mergeResults_order_insensitive_witness :
  Permutation [ {| rr_learnings := ["a"; "b"]%string; rr_visitedUrls := ["u"%string] |};
                {| rr_learnings := ["b"; "c"]%string; rr_visitedUrls := ["v"%string] |} ]
              [ {| rr_learnings := ["b"; "c"]%string; rr_visitedUrls := ["v"%string] |};
                {| rr_learnings := ["a"; "b"]%string; rr_visitedUrls := ["u"%string] |} ]
  /\ Permutation ["a"; "b"; "c"]%string ["b"; "c"; "a"]%string
  /\ Permutation ["u"; "v"]%string ["v"; "u"]%string.
Proof.
  split; [apply perm_swap |].
  apply (@mergeResults_order_insensitive
           [ {| rr_learnings := ["a"; "b"]%string; rr_visitedUrls := ["u"%string] |};
             {| rr_learnings := ["b"; "c"]%string; rr_visitedUrls := ["v"%string] |} ]
           [ {| rr_learnings := ["b"; "c"]%string; rr_visitedUrls := ["v"%string] |};
             {| rr_learnings := ["a"; "b"]%string; rr_visitedUrls := ["u"%string] |} ]).
  apply perm_swap.
Defined.

(* ================================================================== *)
(** * The final report                                                  *)
(* ================================================================== *)

Lemma prefix_append (x y : string) : String.prefix x (x ++ y)%string = true.
Proof.
  induction x as [| c x IH]; simpl.
  - now destruct y.
  - destruct (Ascii.ascii_dec c c); [assumption | congruence].
Qed.

Lemma includes_prefix (hay needle : string) :
  String.prefix needle hay = true -> includes hay needle = true.
Proof. intro H. destruct hay; cbn [includes]; now rewrite H. Qed.

Lemma includes_append_right (a b needle : string) :
  includes b needle = true -> includes (a ++ b)%string needle = true.
Proof.
  intro H. induction a as [| c a IH]; [assumption |].
  cbn [append includes]. rewrite IH.
  now destruct (String.prefix needle (String c (a ++ b))).
Qed.

Lemma prefix_empty (s : string) : String.prefix EmptyString s = true.
Proof. now destruct s. Qed.

Lemma prefix_append_more (needle a b : string) :
  String.prefix needle a = true -> String.prefix needle (a ++ b)%string = true.
Proof.
  revert a. induction needle as [| d needle IH]; intros a H;
    [apply prefix_empty |].
  destruct a as [| c a]; [discriminate |].
  cbn [append String.prefix] in *.
  destruct (Ascii.ascii_dec d c); [now apply IH | discriminate].
Qed.

Lemma includes_append_left (a b needle : string) :
  includes a needle = true -> includes (a ++ b)%string needle = true.
Proof.
  induction a as [| c a IH].
  - cbn [includes]. destruct (String.prefix needle EmptyString) eqn:Hp;
      [| discriminate].
    intros _. apply includes_prefix.
    now apply (prefix_append_more needle EmptyString b).
  - cbn [append includes].
    destruct (String.prefix needle (String c a)) eqn:Hp.
    + intros _.
      pose proof (prefix_append_more needle (String c a) b Hp) as Hp'.
      cbn [append] in Hp'. now rewrite Hp'.
    + intro H. rewrite (IH H).
      now destruct (String.prefix needle (String c (a ++ b))).
Qed.

Lemma append_empty_r (s : string) : (s ++ EmptyString)%string = s.
Proof. induction s as [| c s IH]; simpl; [reflexivity | now rewrite IH]. Qed.

(** Every part of a joined string is in it. *)
Lemma includes_join (sep : string) (parts : list string) (p : string) :
  In p parts -> includes (join sep parts) p = true.
Proof.
  induction parts as [| q parts IH]; [contradiction |].
  intros [-> | Hin].
  - destruct parts; cbn [join].
    + apply includes_prefix. rewrite <- (append_empty_r p) at 2.
      apply prefix_append.
    + apply includes_prefix, prefix_append.
  - destruct parts as [| q' parts]; [contradiction |].
    cbn [join]. apply includes_append_right, includes_append_right.
    now apply IH.
Qed.

(** When the language model writes the report, [writeFinalReport] answers
    with that text followed by a section that lists every visited URL as
    an item; it adds no URL of its own. *)
Theorem writeFinalReport_lists_sources
        (llmReport : string -> list string -> Result string)
        (prompt : string) (learnings visitedUrls : list string)
        (reportMarkdown : string) :
  llmReport prompt learnings = Ok reportMarkdown ->
  exists report,
    writeFinalReport llmReport prompt learnings visitedUrls = Ok report
    /\ String.prefix reportMarkdown report = true
    /\ includes report "## Sources" = true
    /\ forall url, In url visitedUrls ->
                   includes report ("- " ++ url)%string = true.
Proof.
  intro Hllm. unfold writeFinalReport. rewrite Hllm. simpl.
  eexists. split; [reflexivity |].
  split; [apply prefix_append |]. split.
  - apply includes_append_right. unfold urlsSection.
    apply includes_append_right, includes_append_right.
    apply includes_prefix, prefix_append.
  - intros url Hurl. apply includes_append_right. unfold urlsSection.
    do 5 apply includes_append_right.
    apply includes_join. now apply (in_map (fun u => ("- " ++ u)%string)).
Qed.

Lemma writeFinalReport_lists_sources_witness :
  (fun (_ : string) (_ : list string) => Ok "# Report"%string)
    "topic"%string ["learning one"%string] = Ok "# Report"%string
  /\ exists report,
      writeFinalReport (fun _ _ => Ok "# Report"%string) "topic"
                       ["learning one"%string]
                       ["https://a.example/"; "https://b.example/"]%string
      = Ok report
      /\ String.prefix "# Report" report = true
      /\ includes report "## Sources" = true
      /\ forall url, In url ["https://a.example/"; "https://b.example/"]%string ->
                     includes report ("- " ++ url)%string = true.
Proof.
  split; [reflexivity |].
  apply (@writeFinalReport_lists_sources (fun _ _ => Ok "# Report"%string)
           "topic"%string ["learning one"%string]
           ["https://a.example/"; "https://b.example/"]%string
           "# Report"%string).
  reflexivity.
Defined.

(** A failure of the language model is the outcome of [writeFinalReport]. *)
Lemma writeFinalReport_propagates
      (llmReport : string -> list string -> Result string)
      (prompt : string) (learnings visitedUrls : list string) (e : JsError) :
  llmReport prompt learnings = Err e ->
  writeFinalReport llmReport prompt learnings visitedUrls = Err e.
Proof. intro H. unfold writeFinalReport. now rewrite H. Qed.

(* ================================================================== *)
(** * The audit engine: corrections and the verified list               *)
(* ================================================================== *)

Lemma includes_refl (s : string) : includes s s = true.
Proof.
  apply includes_prefix. rewrite <- (append_empty_r s) at 2.
  apply prefix_append.
Qed.

Lemma isMatch_self (w : Collaborators) (c : Contact) : isMatch w c c = true.
Proof. unfold isMatch. now rewrite includes_refl. Qed.

Lemma compareFields_same (c : Contact) : compareFields c c = [].
Proof.
  unfold compareFields.
  assert (forall l : list ContactField,
             flat_map
               (fun field =>
                  if truthy (fieldValue c field) && truthy (fieldValue c field)
                     && negb (String.eqb (fieldValue c field) (fieldValue c field))
                  then [ {| corr_email := email c;
                            corr_field := fieldName field;
                            corr_before := fieldValue c field;
                            corr_after := fieldValue c field;
                            corr_reason :=
                              "Verification research found updated information" |} ]
                  else []) l = []) as H.
  { induction l as [| f l IH]; simpl; [reflexivity |].
    rewrite String.eqb_refl, andb_false_r. exact IH. }
  apply H.
Qed.

Lemma mergeContact_same (c : Contact) : mergeContact c c = c.
Proof.
  destruct c as [n e co tg po ci sp cn nu tz de pr sg sl cm ind lk].
  unfold mergeContact, orElse, optOr. simpl.
  destruct e, nu, de; reflexivity.
Qed.

(** Verification that finds the record itself is a no-op: when the first
    contact extracted from the verification research is identical to the
    original, [verifyContact] answers with the original and no correction. *)
Theorem verifyContact_identical_candidate (w : Collaborators) (contact : Contact)
        (originalQuery : string) (depth : Z) (research : ResearchResult)
        (others : list Contact) :
  deepResearch w (verificationQuery contact originalQuery) 2 depth [] []
  = Ok research ->
  generateContactsFromLearnings w (rr_learnings research) [position contact]
  = Ok (contact :: others) ->
  verifyContact w contact originalQuery depth = Ok (contact, []).
Proof.
  intros Hr Hc. unfold verifyContact. rewrite Hr. simpl. rewrite Hc. simpl.
  unfold findMatch. simpl. rewrite isMatch_self.
  now rewrite mergeContact_same, compareFields_same.
Qed.

Lemma verifyContact_identical_candidate_witness :
  deepResearch (Fixtures.world (fun _ => Ok [Fixtures.queryOne])
                               (fun _ => Ok [Fixtures.pageA])
                               (Ok [Fixtures.john; Fixtures.jane]))
               (verificationQuery Fixtures.john "test") 2 1 [] []
  = Ok {| rr_learnings := ["learning one"%string];
          rr_visitedUrls := ["https://a.example/"%string] |}
  /\ generateContactsFromLearnings
       (Fixtures.world (fun _ => Ok [Fixtures.queryOne])
                       (fun _ => Ok [Fixtures.pageA])
                       (Ok [Fixtures.john; Fixtures.jane]))
       ["learning one"%string] [position Fixtures.john]
     = Ok [Fixtures.john; Fixtures.jane]
  /\ verifyContact (Fixtures.world (fun _ => Ok [Fixtures.queryOne])
                                   (fun _ => Ok [Fixtures.pageA])
                                   (Ok [Fixtures.john; Fixtures.jane]))
                   Fixtures.john "test" 1
     = Ok (Fixtures.john, []).
Proof.
  split; [vm_compute; reflexivity |]. split; [reflexivity |].
  apply (@verifyContact_identical_candidate
           (Fixtures.world (fun _ => Ok [Fixtures.queryOne])
                           (fun _ => Ok [Fixtures.pageA])
                           (Ok [Fixtures.john; Fixtures.jane]))
           Fixtures.john "test"%string 1
           {| rr_learnings := ["learning one"%string];
              rr_visitedUrls := ["https://a.example/"%string] |}
           [Fixtures.jane]).
  - vm_compute. reflexivity.
  - reflexivity.
Defined.

(** What a correction logged by the comparison says. *)
Lemma compareFields_sound (contact verified : Contact) (c : Correction) :
  In c (compareFields contact verified) ->
  corr_email c = email contact
  /\ exists field,
      corr_field c = fieldName field
      /\ corr_before c = fieldValue contact field
      /\ corr_after c = fieldValue verified field
      /\ corr_before c <> EmptyString
      /\ corr_after c <> EmptyString
      /\ corr_before c <> corr_after c.
Proof.
  unfold compareFields. intro H. apply in_flat_map in H.
  destruct H as [field [_ H]].
  destruct (truthy (fieldValue contact field)) eqn:Ho; [| destruct H].
  destruct (truthy (fieldValue verified field)) eqn:Hv; [| destruct H].
  destruct (String.eqb (fieldValue contact field) (fieldValue verified field))
    eqn:Heq; [destruct H |].
  destruct H as [<- | []]. simpl. split; [reflexivity |].
  exists field. repeat split.
  - intro E. rewrite E in Ho. discriminate.
  - intro E. rewrite E in Hv. discriminate.
  - intro E. apply String.eqb_neq in Heq. contradiction.
Qed.

Lemma compareFields_length (contact verified : Contact) :
  (List.length (compareFields contact verified) <= 10)%nat.
Proof.
  unfold compareFields, fields. simpl.
  repeat match goal with
         | |- context [if ?b then _ else _] => destruct b
         end; simpl; lia.
Qed.

(** A field that was corrected has, in the merged record, the value the
    correction logs. *)
Lemma mergeContact_corrected_field (contact verified : Contact)
      (field : ContactField) :
  fieldValue verified field <> EmptyString ->
  fieldValue (mergeContact contact verified) field = fieldValue verified field.
Proof.
  destruct field; simpl; try reflexivity.
  - unfold orElse. destruct (email verified); [congruence | reflexivity].
  - destruct (department verified); simpl; [reflexivity | congruence].
Qed.

(** The corrections [verifyContact] logs agree with the record it returns:
    there are at most ten, each is filed under the email of the original
    record, names one of the compared fields, and records as [before] the
    original's value of that field and as [after] the returned record's
    value, both non-empty and different. *)
Theorem verifyContact_corrections_consistent (w : Collaborators)
        (contact : Contact) (originalQuery : string) (depth : Z) :
  exists verifiedContact cs,
    verifyContact w contact originalQuery depth = Ok (verifiedContact, cs)
    /\ (List.length cs <= 10)%nat
    /\ Forall
         (fun c =>
            corr_email c = email contact
            /\ exists field,
                corr_field c = fieldName field
                /\ corr_before c = fieldValue contact field
                /\ corr_after c = fieldValue verifiedContact field
                /\ corr_before c <> EmptyString
                /\ corr_after c <> EmptyString
                /\ corr_before c <> corr_after c)
         cs.
Proof.
  unfold verifyContact, tryCatch, bind.
  destruct (deepResearch w _ _ _ _ _);
    [| exists contact, []; simpl; repeat split; [lia | constructor]].
  destruct (generateContactsFromLearnings w _ _);
    [| exists contact, []; simpl; repeat split; [lia | constructor]].
  destruct (findMatch w contact _) as [verified |];
    [| exists contact, []; simpl; repeat split; [lia | constructor]].
  exists (mergeContact contact verified), (compareFields contact verified).
  split; [reflexivity |]. split; [apply compareFields_length |].
  apply Forall_forall. intros c Hc.
  destruct (compareFields_sound _ _ _ Hc)
    as [He [field [Hf [Hb [Ha [Hbn [Han Hne]]]]]]].
  split; [assumption |]. exists field.
  repeat split; try assumption.
  rewrite Ha. symmetry. apply mergeContact_corrected_field.
  now rewrite <- Ha.
Qed.

Lemma verifyContact_files_under_original (w : Collaborators) (contact : Contact)
      (originalQuery : string) (depth : Z) (verifiedContact : Contact)
      (cs : list Correction) :
  verifyContact w contact originalQuery depth = Ok (verifiedContact, cs) ->
  Forall (fun c => corr_email c = email contact) cs.
Proof.
  unfold verifyContact, tryCatch, bind.
  destruct (deepResearch w _ _ _ _ _);
    [| intro H; inversion H; constructor].
  destruct (generateContactsFromLearnings w _ _);
    [| intro H; inversion H; constructor].
  destruct (findMatch w contact _) as [verified |];
    [| intro H; inversion H; constructor].
  intro H. inversion H. apply Forall_forall. intros c Hc.
  now destruct (compareFields_sound _ _ _ Hc).
Qed.

(** The corrections the loop adds are filed under emails of the contacts it
    is run on. *)
Lemma auditLoop_corrections (w : Collaborators) originalQuery criteria
      (known : list Contact) (sample : list Contact) :
  forall st : AuditState,
    incl sample known ->
    Forall (fun c => exists s, In s known /\ corr_email c = email s) (snd st) ->
    Forall (fun c => exists s, In s known /\ corr_email c = email s)
           (snd (fold_left (auditStep w originalQuery criteria) sample st)).
Proof.
  induction sample as [| s sample IH]; simpl; intros st Hincl Hst;
    [assumption |].
  apply IH; [intros x Hx; apply Hincl; now right |].
  destruct (auditStep_sets w originalQuery criteria st s) as [v [cs [Hv Hstep]]].
  rewrite Hstep. simpl. apply Forall_app. split; [assumption |].
  apply verifyContact_files_under_original in Hv.
  eapply Forall_impl; [| exact Hv].
  simpl. intros c Hc. exists s. split; [apply Hincl; now left | assumption].
Qed.

(** Outside bypass mode every correction of an audit is filed under the
    email of one of the audited records. *)
Theorem auditContacts_corrections_refer_to_records (w : Collaborators)
        (contacts : list Contact) (criteria : AuditingCriteria)
        (originalQuery : string) :
  bypass w = false ->
  (forall (U : Type) (l : list U), Permutation (shuffle w l) l) ->
  exists res,
    auditContacts w contacts criteria originalQuery = Ok res
    /\ Forall (fun c => exists s, In s contacts /\ corr_email c = email s)
              (corrections res).
Proof.
  intros Hby Hperm. unfold auditContacts.
  destruct contacts as [| c0 cs] eqn:Hcontacts.
  - eexists. split; [reflexivity | constructor].
  - rewrite <- Hcontacts. rewrite Hby.
    eexists. split; [reflexivity |]. simpl.
    apply auditLoop_corrections; [| constructor].
    intros s Hs. eapply getRandomSample_incl; [exact Hperm | exact Hs].
Qed.

Lemma auditContacts_corrections_refer_to_records_witness :
  bypass Fixtures.worldNewTitle = false
  /\ (forall (U : Type) (l : list U),
         Permutation (shuffle Fixtures.worldNewTitle l) l)
  /\ exists res,
      auditContacts Fixtures.worldNewTitle [Fixtures.john; Fixtures.jane]
                    {| sampleSize := 2; verificationDepth := 1 |} "test"
      = Ok res
      /\ Forall (fun c => exists s,
                     In s [Fixtures.john; Fixtures.jane]
                     /\ corr_email c = email s)
                (corrections res).
Proof.
  split; [reflexivity |].
  split; [intros U l; apply Permutation_sym, Permutation_rev |].
  apply (@auditContacts_corrections_refer_to_records Fixtures.worldNewTitle
           [Fixtures.john; Fixtures.jane]
           {| sampleSize := 2; verificationDepth := 1 |} "test"%string).
  - reflexivity.
  - intros U l. apply Permutation_sym, Permutation_rev.
Defined.

Lemma mapValues_entries (contacts : list Contact) :
  mapValues (map mapEntry contacts) = contacts.
Proof.
  unfold mapValues. rewrite map_map. simpl. apply map_id.
Qed.

(** With [sampleSize] 0 and pairwise distinct emails, outside bypass mode,
    the audit verifies nothing: it answers with the records as they are and
    with no correction. *)
Theorem auditContacts_sample_of_zero (w : Collaborators)
        (contacts : list Contact) (criteria : AuditingCriteria)
        (originalQuery : string) :
  bypass w = false ->
  sampleSize criteria = 0%Z ->
  NoDup (map email contacts) ->
  auditContacts w contacts criteria originalQuery
  = Ok {| verifiedContacts := contacts; corrections := [] |}.
Proof.
  intros Hby Hsize Hnd. unfold auditContacts.
  destruct contacts as [| c0 cs] eqn:Hcontacts; [reflexivity |].
  rewrite <- Hcontacts in *. rewrite Hby, Hsize.
  assert (getRandomSample w contacts 0 = []) as ->.
  { unfold getRandomSample. rewrite Hcontacts.
    destruct (Z.of_nat (List.length (c0 :: cs)) <=? 0)%Z eqn:Hle;
      [apply Z.leb_le in Hle; simpl in Hle; lia | apply slice0_zero]. }
  simpl. now rewrite initMap_distinct, mapValues_entries.
Qed.

Lemma auditContacts_sample_of_zero_witness :
  bypass Fixtures.worldNewTitle = false
  /\ sampleSize {| sampleSize := 0; verificationDepth := 1 |} = 0%Z
  /\ NoDup (map email [Fixtures.john; Fixtures.jane])
  /\ auditContacts Fixtures.worldNewTitle [Fixtures.john; Fixtures.jane]
                   {| sampleSize := 0; verificationDepth := 1 |} "test"
     = Ok {| verifiedContacts := [Fixtures.john; Fixtures.jane];
             corrections := [] |}.
Proof.
  assert (NoDup (map email [Fixtures.john; Fixtures.jane])) as Hnd.
  { simpl. constructor; [simpl; intuition discriminate |].
    constructor; [simpl; tauto | constructor]. }
  split; [reflexivity |]. split; [reflexivity |]. split; [exact Hnd |].
  apply (@auditContacts_sample_of_zero Fixtures.worldNewTitle
           [Fixtures.john; Fixtures.jane]
           {| sampleSize := 0; verificationDepth := 1 |} "test"%string);
    [reflexivity | reflexivity | exact Hnd].
Defined.

(** The keys of the map of verified contacts are the distinct emails of the
    records, in the order of their first occurrence. *)
Lemma initMap_keys_from (contacts : list Contact) :
  forall acc : JsMap,
    map fst (fold_left (fun m contact => mapSet (email contact) contact m)
                       contacts acc)
    = setInsertAll (map fst acc) (map email contacts).
Proof.
  induction contacts as [| c cs IH]; simpl; intro acc; [reflexivity |].
  rewrite IH. destruct (mem (email c) (map fst acc)) eqn:Hmem.
  - apply mem_In in Hmem. now rewrite mapSet_present.
  - apply mem_not_In in Hmem. rewrite mapSet_absent by assumption.
    now rewrite map_app.
Qed.

Lemma dedupe_length (l : list string) :
  (List.length (dedupe l) <= List.length l)%nat.
Proof.
  apply NoDup_incl_length; [apply dedupe_NoDup |].
  intros x Hx. now apply dedupe_In.
Qed.

(** A list with a repeated element loses at least one element when it is
    deduplicated. *)
Lemma dedupe_shorter (l : list string) :
  ~ NoDup l -> (List.length (dedupe l) < List.length l)%nat.
Proof.
  intro Hdup.
  destruct (Nat.lt_ge_cases (List.length (dedupe l)) (List.length l))
    as [Hlt | Hge]; [assumption |].
  exfalso. apply Hdup.
  apply (@NoDup_incl_NoDup _ (dedupe l) l);
    [apply dedupe_NoDup | exact Hge |].
  intros x Hx. now apply dedupe_In.
Qed.

(** Records that share an email are collapsed by the map keyed by email:
    outside bypass mode the verified list has as many records as the input
    has distinct emails, so it is never longer than the input, and it is
    strictly shorter as soon as two records of the input share an email. *)
Theorem auditContacts_counts_distinct_emails (w : Collaborators)
        (contacts : list Contact) (criteria : AuditingCriteria)
        (originalQuery : string) :
  bypass w = false ->
  (forall (U : Type) (l : list U), Permutation (shuffle w l) l) ->
  exists res,
    auditContacts w contacts criteria originalQuery = Ok res
    /\ List.length (verifiedContacts res)
       = List.length (dedupe (map email contacts))
    /\ (List.length (verifiedContacts res) <= List.length contacts)%nat
    /\ (~ NoDup (map email contacts) ->
        (List.length (verifiedContacts res) < List.length contacts)%nat).
Proof.
  intros Hby Hperm.
  assert (forall res,
             List.length (verifiedContacts res)
             = List.length (dedupe (map email contacts)) ->
             (List.length (verifiedContacts res) <= List.length contacts)%nat
             /\ (~ NoDup (map email contacts) ->
                 (List.length (verifiedContacts res)
                  < List.length contacts)%nat))
    as Hle.
  { intros res ->. rewrite <- (length_map email contacts).
    split; [apply dedupe_length | apply dedupe_shorter]. }
  unfold auditContacts.
  destruct contacts as [| c0 cs] eqn:Hcontacts.
  - eexists. split; [reflexivity |]. split; [reflexivity |].
    split; [simpl; lia |]. intro Hdup. exfalso. apply Hdup. constructor.
  - rewrite <- Hcontacts in *. rewrite Hby.
    eexists. split; [reflexivity |].
    assert (map fst (initMap contacts) = dedupe (map email contacts)) as Hkeys
        by (unfold initMap, dedupe; apply initMap_keys_from).
    match goal with
    | |- ?A /\ _ => assert A as Hlen
    end.
    { simpl. unfold mapValues. rewrite length_map.
      rewrite <- (length_map fst), auditLoop_keys; simpl.
      - now rewrite Hkeys.
      - intros s Hs. rewrite Hkeys. apply dedupe_In, in_map.
        eapply getRandomSample_incl; [exact Hperm | exact Hs]. }
    split; [exact Hlen | apply Hle; exact Hlen].
Qed.

Lemma auditContacts_counts_distinct_emails_witness :
  bypass Fixtures.worldNewTitle = false
  /\ (forall (U : Type) (l : list U),
         Permutation (shuffle Fixtures.worldNewTitle l) l)
  /\ exists res,
      auditContacts Fixtures.worldNewTitle
                    [Fixtures.john; Fixtures.jane; Fixtures.johnNewTitle]
                    {| sampleSize := 1; verificationDepth := 1 |} "test"
      = Ok res
      /\ List.length (verifiedContacts res)
         = List.length
             (dedupe (map email
                          [Fixtures.john; Fixtures.jane; Fixtures.johnNewTitle]))
      /\ (List.length (verifiedContacts res)
          <= List.length [Fixtures.john; Fixtures.jane; Fixtures.johnNewTitle])%nat
      /\ (~ NoDup (map email
                       [Fixtures.john; Fixtures.jane; Fixtures.johnNewTitle]) ->
          (List.length (verifiedContacts res)
           < List.length [Fixtures.john; Fixtures.jane; Fixtures.johnNewTitle])%nat).
Proof.
  split; [reflexivity |].
  split; [intros U l; apply Permutation_sym, Permutation_rev |].
  apply (@auditContacts_counts_distinct_emails Fixtures.worldNewTitle
           [Fixtures.john; Fixtures.jane; Fixtures.johnNewTitle]
           {| sampleSize := 1; verificationDepth := 1 |} "test"%string).
  - reflexivity.
  - intros U l. apply Permutation_sym, Permutation_rev.
Defined.

(** A negative [sampleSize] does not give an empty sample: [slice(0, n)]
    counts a negative [n] from the end, so all the records but [-sampleSize]
    of them are sampled. *)
Theorem getRandomSample_negative_size (w : Collaborators) (T : Type)
        (array : list T) (size : Z) :
  (forall (U : Type) (l : list U), Permutation (shuffle w l) l) ->
  (size < 0)%Z ->
  List.length (getRandomSample w array size)
  = (List.length array - Z.to_nat (- size))%nat.
Proof.
  intros Hperm Hsize. unfold getRandomSample.
  destruct (Z.of_nat (List.length array) <=? size)%Z eqn:Hle;
    [apply Z.leb_le in Hle; lia |].
  destruct (slice0_prefix (shuffle w array) size) as [rest [_ Hlen]].
  rewrite Hlen.
  replace (size <? 0)%Z with true by (symmetry; now apply Z.ltb_lt).
  now rewrite (Permutation_length (Hperm T array)).
Qed.

Lemma getRandomSample_negative_size_witness :
  (forall (U : Type) (l : list U), Permutation (shuffle Fixtures.worldOne l) l)
  /\ (-1 < 0)%Z
  /\ List.length (getRandomSample Fixtures.worldOne
                                  [Fixtures.john; Fixtures.jane; Fixtures.namesake]
                                  (-1))
     = (3 - Z.to_nat (- (-1)))%nat.
Proof.
  split; [intros U l; apply Permutation_sym, Permutation_rev |].
  split; [lia |].
  apply (@getRandomSample_negative_size Fixtures.worldOne Contact
           [Fixtures.john; Fixtures.jane; Fixtures.namesake] (-1)).
  - intros U l. apply Permutation_sym, Permutation_rev.
  - lia.
Defined.

(* ================================================================== *)
(** * Retrying with exponential backoff                                 *)
(* ================================================================== *)

Lemma backoff_from (attempt : Z) (k : nat) :
  map (fun j => 2 ^ (attempt + 1 - 1 + Z.of_nat j) * 1000)%Z (seq 0 k)
  = map (fun j => 2 ^ (attempt - 1 + Z.of_nat j) * 1000)%Z (seq 1 k).
Proof.
  rewrite <- seq_shift, map_map. apply map_ext. intro j.
  do 2 f_equal. lia.
Qed.

Section RetryFacts.

Variables St T : Type.
Variable operation : St -> Result T * St.
Variable maxRetries : Z.

Lemma attemptOutcome_next (j : nat) (st : St) :
  attemptOutcome operation (S j) st
  = attemptOutcome operation j (snd (operation st)).
Proof. reflexivity. Qed.

Lemma retryLoop_step (remaining : nat) attempt lastError delays st :
  retryLoop operation maxRetries (S remaining) attempt lastError delays st
  = match operation st with
    | (Ok a, st') =>
        {| run_outcome := Fulfilled a; run_delays := delays; run_state := st' |}
    | (Err e, st') =>
        if (attempt =? maxRetries)%Z then
          {| run_outcome := Rejected e; run_delays := delays; run_state := st' |}
        else
          retryLoop operation maxRetries remaining (attempt + 1)%Z (Some e)
                    (delays ++ [2 ^ (attempt - 1) * 1000]%Z) st'
    end.
Proof. reflexivity. Qed.

(** The loop, when the attempt number [k + 1] from here is the first to
    succeed. *)
Lemma retryLoop_first_success (k : nat) :
  forall remaining attempt lastError delays st a,
    (k < remaining)%nat ->
    Z.of_nat remaining = (maxRetries - attempt + 1)%Z ->
    (forall j, (j < k)%nat -> exists e, attemptOutcome operation j st = Err e) ->
    attemptOutcome operation k st = Ok a ->
    retryLoop operation maxRetries remaining attempt lastError delays st
    = {| run_outcome := Fulfilled a;
         run_delays :=
           delays ++ map (fun j => 2 ^ (attempt - 1 + Z.of_nat j) * 1000)%Z
                         (seq 0 k);
         run_state := stateAfter operation (S k) st |}.
Proof.
  induction k as [| k IH]; intros remaining attempt lastError delays st a
    Hk Hrem Hfail Hok;
    (destruct remaining as [| remaining]; [lia |]); simpl.
  - unfold attemptOutcome in Hok. simpl in Hok.
    destruct (operation st) as [[a' | e] st']; simpl in *; [| discriminate].
    inversion Hok. now rewrite app_nil_r.
  - destruct (Hfail 0%nat) as [e He]; [lia |].
    unfold attemptOutcome in He. simpl in He.
    destruct (operation st) as [[a' | e'] st'] eqn:Hop; simpl in *;
      [discriminate |].
    destruct (attempt =? maxRetries)%Z eqn:Hlast;
      [apply Z.eqb_eq in Hlast; lia |].
    rewrite (IH remaining (attempt + 1)%Z (Some e')
                (delays ++ [(2 ^ (attempt - 1) * 1000)%Z]) st' a).
    + rewrite backoff_from, <- app_assoc. simpl.
      replace (attempt - 1 + 0)%Z with (attempt - 1)%Z by lia.
      reflexivity.
    + lia.
    + lia.
    + intros j Hj. specialize (Hfail (S j)).
      rewrite attemptOutcome_next, Hop in Hfail. apply Hfail. lia.
    + rewrite attemptOutcome_next, Hop in Hok. exact Hok.
Qed.

(** The loop, when every attempt that is left fails. *)
Lemma retryLoop_exhausted (remaining : nat) :
  forall attempt lastError delays st e,
    Z.of_nat (S remaining) = (maxRetries - attempt + 1)%Z ->
    (forall j, (j < remaining)%nat ->
               exists e', attemptOutcome operation j st = Err e') ->
    attemptOutcome operation remaining st = Err e ->
    retryLoop operation maxRetries (S remaining) attempt lastError delays st
    = {| run_outcome := Rejected e;
         run_delays :=
           delays ++ map (fun j => 2 ^ (attempt - 1 + Z.of_nat j) * 1000)%Z
                         (seq 0 remaining);
         run_state := stateAfter operation (S remaining) st |}.
Proof.
  induction remaining as [| remaining IH]; intros attempt lastError delays st e
    Hrem Hfail Hlast.
  - simpl. unfold attemptOutcome in Hlast. simpl in Hlast.
    destruct (operation st) as [[a | e'] st']; simpl in *; [discriminate |].
    inversion Hlast; subst.
    replace (attempt =? maxRetries)%Z with true
      by (symmetry; apply Z.eqb_eq; lia).
    now rewrite app_nil_r.
  - rewrite retryLoop_step.
    destruct (Hfail 0%nat) as [e0 He0]; [lia |].
    unfold attemptOutcome in He0. simpl in He0.
    destruct (operation st) as [[a | e'] st'] eqn:Hop; simpl in He0;
      [discriminate |].
    cbn beta iota.
    destruct (attempt =? maxRetries)%Z eqn:Heq;
      [apply Z.eqb_eq in Heq; lia |].
    rewrite (IH (attempt + 1)%Z (Some e')
                (delays ++ [(2 ^ (attempt - 1) * 1000)%Z]) st' e).
    + rewrite backoff_from, <- app_assoc.
      cbn [stateAfter]. rewrite Hop. simpl.
      replace (attempt - 1 + 0)%Z with (attempt - 1)%Z by lia.
      reflexivity.
    + lia.
    + intros j Hj. specialize (Hfail (S j)).
      rewrite attemptOutcome_next, Hop in Hfail. apply Hfail. lia.
    + rewrite attemptOutcome_next, Hop in Hlast. exact Hlast.
Qed.

(** With no attempt allowed the operation is never called and the promise
    is rejected with [undefined]. *)
Lemma withRetry_no_attempt (st : St) :
  (maxRetries <= 0)%Z ->
  withRetry operation maxRetries st
  = {| run_outcome := RejectedUndefined; run_delays := []; run_state := st |}.
Proof.
  intro H. unfold withRetry.
  replace (Z.to_nat maxRetries) with 0%nat by lia. reflexivity.
Qed.

(** A bound that every call of the operation respects holds for the run. *)
Lemma retryLoop_bound (measure : St -> Z) (step : Z) (remaining : nat) :
  (0 <= step)%Z ->
  (forall st, measure (snd (operation st)) <= measure st + step)%Z ->
  forall attempt lastError delays st,
    (measure (run_state (retryLoop operation maxRetries remaining attempt
                                   lastError delays st))
     <= measure st + Z.of_nat remaining * step)%Z.
Proof.
  intros Hstep Hop. induction remaining as [| remaining IH];
    intros attempt lastError delays st; cbn [retryLoop].
  - simpl. lia.
  - specialize (Hop st). rewrite Nat2Z.inj_succ.
    destruct (operation st) as [[a | e] st']; cbn [snd] in Hop.
    + cbn [run_state]. nia.
    + destruct (attempt =? maxRetries)%Z; cbn [run_state]; [nia |].
      specialize (IH (attempt + 1)%Z (Some e)
                     (delays ++ [(2 ^ (attempt - 1) * 1000)%Z]) st').
      nia.
Qed.

End RetryFacts.

Lemma backoff_eq (k : nat) :
  map (fun j => 2 ^ (1 - 1 + Z.of_nat j) * 1000)%Z (seq 0 k) = backoff k.
Proof. unfold backoff. apply map_ext. intro j. reflexivity. Qed.

(** [withRetry] answers with the first attempt that succeeds: when the
    attempts before the attempt number [k + 1 <= maxRetries] fail and that
    one succeeds, the operation is called [k + 1] times, the run sleeps
    1s, 2s, 4s, ... between the attempts and is fulfilled with the value of
    the last call. *)
Theorem withRetry_first_success (St T : Type)
        (operation : St -> Result T * St) (maxRetries : Z) (st : St)
        (k : nat) (a : T) :
  (Z.of_nat k < maxRetries)%Z ->
  (forall j, (j < k)%nat -> exists e, attemptOutcome operation j st = Err e) ->
  attemptOutcome operation k st = Ok a ->
  withRetry operation maxRetries st
  = {| run_outcome := Fulfilled a;
       run_delays := backoff k;
       run_state := stateAfter operation (S k) st |}.
Proof.
  intros Hk Hfail Hok. unfold withRetry.
  rewrite (@retryLoop_first_success St T operation maxRetries k
             (Z.to_nat maxRetries) 1 None [] st a); try assumption; try lia.
  now rewrite backoff_eq.
Qed.

Lemma withRetry_first_success_witness :
  (Z.of_nat 2 < 3)%Z
  /\ (forall j, (j < 2)%nat ->
        exists e,
          attemptOutcome
            (fun n : nat => (if (n <? 2)%nat then Err "busy"%string
                             else Ok "sent"%string, S n)) j 0%nat = Err e)
  /\ attemptOutcome
       (fun n : nat => (if (n <? 2)%nat then Err "busy"%string
                        else Ok "sent"%string, S n)) 2 0%nat
     = Ok "sent"%string
  /\ withRetry (fun n : nat => (if (n <? 2)%nat then Err "busy"%string
                                else Ok "sent"%string, S n)) 3 0%nat
     = {| run_outcome := Fulfilled "sent"%string;
          run_delays := [1000; 2000]%Z;
          run_state := 3%nat |}.
Proof.
  assert (forall j, (j < 2)%nat ->
            exists e,
              attemptOutcome
                (fun n : nat => (if (n <? 2)%nat then Err "busy"%string
                                 else Ok "sent"%string, S n)) j 0%nat = Err e)
    as Hfail.
  { intros [| [| j]] Hj; [eexists; reflexivity | eexists; reflexivity | lia]. }
  split; [lia |]. split; [exact Hfail |]. split; [reflexivity |].
  apply (@withRetry_first_success nat string
           (fun n : nat => (if (n <? 2)%nat then Err "busy"%string
                            else Ok "sent"%string, S n)) 3 0%nat 2%nat
           "sent"%string);
    [lia | exact Hfail | reflexivity].
Defined.

(** When all the [maxRetries >= 1] attempts fail, the operation was called
    [maxRetries] times, the run slept between the attempts but not after
    the last one, and it is rejected with the error of the last attempt. *)
Theorem withRetry_exhausted (St T : Type)
        (operation : St -> Result T * St) (maxRetries : Z) (st : St)
        (e : JsError) :
  (1 <= maxRetries)%Z ->
  (forall j, (j < Z.to_nat maxRetries)%nat ->
             exists e', attemptOutcome operation j st = Err e') ->
  attemptOutcome operation (Z.to_nat maxRetries - 1) st = Err e ->
  withRetry operation maxRetries st
  = {| run_outcome := Rejected e;
       run_delays := backoff (Z.to_nat maxRetries - 1);
       run_state := stateAfter operation (Z.to_nat maxRetries) st |}.
Proof.
  intros Hmax Hfail Hlast. unfold withRetry.
  destruct (Z.to_nat maxRetries) as [| n] eqn:Hn; [lia |].
  replace (S n - 1)%nat with n in * by lia.
  rewrite (@retryLoop_exhausted St T operation maxRetries n 1 None [] st e);
    try assumption.
  - now rewrite backoff_eq.
  - lia.
  - intros j Hj. apply Hfail. lia.
Qed.

Lemma withRetry_exhausted_witness :
  (1 <= 3)%Z
  /\ (forall j, (j < Z.to_nat 3)%nat ->
        exists e',
          attemptOutcome
            (fun n : nat => (Err (if (n <? 2)%nat then "busy" else "down")%string
                             : Result unit, S n)) j 0%nat = Err e')
  /\ attemptOutcome
       (fun n : nat => (Err (if (n <? 2)%nat then "busy" else "down")%string
                        : Result unit, S n)) (Z.to_nat 3 - 1) 0%nat
     = Err "down"%string
  /\ withRetry (fun n : nat => (Err (if (n <? 2)%nat then "busy" else "down")%string
                                : Result unit, S n)) 3 0%nat
     = {| run_outcome := Rejected "down"%string;
          run_delays := [1000; 2000]%Z;
          run_state := 3%nat |}.
Proof.
  assert (forall j, (j < Z.to_nat 3)%nat ->
            exists e',
              attemptOutcome
                (fun n : nat =>
                   (Err (if (n <? 2)%nat then "busy" else "down")%string
                    : Result unit, S n)) j 0%nat = Err e') as Hfail
      by (intros j _; eexists; reflexivity).
  split; [lia |]. split; [exact Hfail |]. split; [reflexivity |].
  apply (@withRetry_exhausted nat unit
           (fun n : nat => (Err (if (n <? 2)%nat then "busy" else "down")%string
                            : Result unit, S n)) 3 0%nat "down"%string);
    [lia | exact Hfail | reflexivity].
Defined.

(* ================================================================== *)
(** * The email report                                                  *)
(* ================================================================== *)

(** [sendEmailReport] never rejects and never sends more than three times.
    It reports success exactly when the API key and a recipient are
    configured and one of the first three sends is fulfilled; without the
    key or without a recipient nothing is sent; and every failure comes
    with an error message. *)
Theorem sendEmailReport_outcome (env : EmailEnv)
        (send : EmailMessage -> nat -> Result (option string))
        (htmlReport : string) (stats : ReportStats)
        (recipientEmail fromEmail : option string) :
  exists r calls,
    sendEmailReport env send htmlReport stats recipientEmail fromEmail
    = (Ok r, calls)
    /\ (calls <= 3)%nat
    /\ (er_success r = true <->
        truthyOpt (RESEND_API_KEY env) = true
        /\ truthyOpt (emailRecipient env recipientEmail) = true
        /\ exists k id,
            (k < 3)%nat
            /\ send (emailMessage env htmlReport stats recipientEmail fromEmail) k
               = Ok id)
    /\ (truthyOpt (RESEND_API_KEY env) = false
        \/ truthyOpt (emailRecipient env recipientEmail) = false ->
        calls = 0%nat)
    /\ (er_success r = false -> exists msg, er_error r = Some msg).
Proof.
  unfold sendEmailReport.
  destruct (truthyOpt (RESEND_API_KEY env)) eqn:Hkey; simpl.
  2:{ do 2 eexists. split; [reflexivity |]. simpl.
      split; [lia |].
      split; [split; [discriminate | intros [H _]; discriminate] |].
      split; [reflexivity | eauto]. }
  destruct (truthyOpt (emailRecipient env recipientEmail)) eqn:Hto; simpl.
  2:{ do 2 eexists. split; [reflexivity |]. simpl.
      split; [lia |].
      split; [split; [discriminate | intros [_ [H _]]; discriminate] |].
      split; [reflexivity | eauto]. }
  set (msg := emailMessage env htmlReport stats recipientEmail fromEmail).
  unfold withRetry. simpl.
  destruct (send msg 0%nat) as [id0 | e0] eqn:H0; simpl.
  { do 2 eexists. split; [reflexivity |]. simpl.
    split; [lia |].
    split; [split; [intros _; repeat split; exists 0%nat, id0; split; [lia | assumption]
                   | reflexivity] |].
    split; [intros [H | H]; discriminate | discriminate]. }
  destruct (send msg 1%nat) as [id1 | e1] eqn:H1; simpl.
  { do 2 eexists. split; [reflexivity |]. simpl.
    split; [lia |].
    split; [split; [intros _; repeat split; exists 1%nat, id1; split; [lia | assumption]
                   | reflexivity] |].
    split; [intros [H | H]; discriminate | discriminate]. }
  destruct (send msg 2%nat) as [id2 | e2] eqn:H2; simpl.
  { do 2 eexists. split; [reflexivity |]. simpl.
    split; [lia |].
    split; [split; [intros _; repeat split; exists 2%nat, id2; split; [lia | assumption]
                   | reflexivity] |].
    split; [intros [H | H]; discriminate | discriminate]. }
  do 2 eexists. split; [reflexivity |]. simpl.
  split; [lia |].
  split; [| split; [intros [H | H]; discriminate | eauto]].
  split; [discriminate |].
  intros [_ [_ [k [id [Hk Hsend]]]]].
  destruct k as [| [| [| k]]]; try lia; congruence.
Qed.

(* ================================================================== *)
(** * The database layer                                                *)
(* ================================================================== *)

Lemma skipn_past (A : Type) (l : list A) (i : nat) :
  (List.length l <= i)%nat -> skipn i l = [].
Proof.
  revert i. induction l as [| a l IH]; intros [| i] H; simpl in *;
    try reflexivity; try lia.
  apply IH. lia.
Qed.

Lemma batchesFrom_concat (A : Type) (batchSize : nat) (contacts : list A) :
  (1 <= batchSize)%nat ->
  forall fuel i,
    (List.length contacts - i <= fuel)%nat ->
    List.concat (batchesFrom fuel batchSize i contacts) = skipn i contacts.
Proof.
  intro Hb. induction fuel as [| fuel IH]; intros i Hfuel; simpl.
  - symmetry. apply skipn_past. lia.
  - destruct (i <? List.length contacts)%nat eqn:Hi.
    + apply Nat.ltb_lt in Hi. simpl.
      rewrite IH by lia.
      rewrite <- (firstn_skipn batchSize (skipn i contacts)) at 2.
      now rewrite skipn_skipn, (Nat.add_comm batchSize i).
    + apply Nat.ltb_ge in Hi. symmetry. now apply skipn_past.
Qed.

Lemma batchesFrom_sizes (A : Type) (batchSize : nat) (contacts : list A) :
  (1 <= batchSize)%nat ->
  forall fuel i,
    Forall (fun batch => (1 <= List.length batch <= batchSize)%nat)
           (batchesFrom fuel batchSize i contacts).
Proof.
  intro Hb. induction fuel as [| fuel IH]; intro i; simpl; [constructor |].
  destruct (i <? List.length contacts)%nat eqn:Hi; [| constructor].
  apply Nat.ltb_lt in Hi. constructor; [| apply IH].
  rewrite length_firstn, length_skipn. lia.
Qed.

Lemma makeBatches_concat (A : Type) (contacts : list A) :
  List.concat (makeBatches contacts) = contacts.
Proof.
  unfold makeBatches. rewrite batchesFrom_concat; [reflexivity | lia | lia].
Qed.

(** The batches of [insertContacts] cut the contacts without losing,
    repeating or reordering any: they concatenate to the contacts, and every
    batch holds between 1 and 50 of them. *)
Theorem makeBatches_partition (A : Type) (contacts : list A) :
  List.concat (makeBatches contacts) = contacts
  /\ Forall (fun batch => (1 <= List.length batch <= 50)%nat)
            (makeBatches contacts).
Proof.
  split.
  - apply makeBatches_concat.
  - unfold makeBatches. apply batchesFrom_sizes. lia.
Qed.

Section DatabaseFacts.

Variable Db : Type.
Variable client : DbClient Db.

(** A rejection by [insertSingleContact] comes with an error message. *)
Lemma insertSingleContact_error (contact : Contact) (db : Db) :
  io_action (fst (insertSingleContact client contact db)) = ActionRejected ->
  truthyOpt (io_error (fst (insertSingleContact client contact db))) = true.
Proof.
  unfold insertSingleContact.
  destruct (negb (truthy (n_email (normalizeContact contact)))
            || negb (truthy (n_name (normalizeContact contact))));
    [reflexivity |].
  destruct (db_upsert client (normalizeContact contact) db)
    as [[wasInserted | e] db']; simpl; [| reflexivity].
  destruct wasInserted as [[|] |]; discriminate.
Qed.

(** [insertSingleContact] never rejects.  It answers [rejected] exactly when
    the contact has no email, or no name, or the query fails; a contact
    without email or name is not sent to the database; and a rejection
    always comes with an error message. *)
Theorem insertSingleContact_outcome (contact : Contact) (db : Db) :
  exists outcome db',
    insertSingleContact client contact db = (outcome, db')
    /\ (io_action outcome = ActionRejected <->
        email contact = EmptyString \/ name contact = EmptyString
        \/ exists e,
            fst (db_upsert client (normalizeContact contact) db) = Err e)
    /\ (email contact = EmptyString \/ name contact = EmptyString -> db' = db)
    /\ (io_action outcome = ActionRejected ->
        truthyOpt (io_error outcome) = true).
Proof.
  unfold insertSingleContact. simpl. unfold orElse.
  destruct (email contact) as [| c1 e1] eqn:He; simpl.
  { do 2 eexists. split; [reflexivity |]. simpl. intuition. }
  destruct (name contact) as [| c2 n2] eqn:Hn; simpl.
  { do 2 eexists. split; [reflexivity |]. simpl. intuition. }
  match goal with
  | |- context [db_upsert client ?row db] =>
      destruct (db_upsert client row db) as [[wasInserted | e] db'] eqn:Hq
  end; simpl.
  - do 2 eexists. split; [reflexivity |]. simpl.
    repeat split.
    + destruct wasInserted as [[|] |]; discriminate.
    + intros [H | [H | [e H]]]; discriminate.
    + intros [H | H]; discriminate.
    + destruct wasInserted as [[|] |]; discriminate.
  - do 2 eexists. split; [reflexivity |]. simpl.
    repeat split; eauto.
    intros [H | H]; discriminate.
Qed.

(** Every contact of a batch is counted once, and every rejection of the
    batch adds one error. *)
Lemma insertBatch_counts (batch : list Contact) :
  forall st : Db * InsertionResult,
    counted (snd (insertBatch client batch st))
    = (counted (snd st) + Z.of_nat (List.length batch))%Z
    /\ (Z.of_nat (List.length (errors (snd (insertBatch client batch st))))
        - rejected (snd (insertBatch client batch st))
        = Z.of_nat (List.length (errors (snd st))) - rejected (snd st))%Z.
Proof.
  induction batch as [| contact batch IH]; intros [db result];
    [simpl; lia |].
  cbn [insertBatch fst snd].
  pose proof (insertSingleContact_error contact db) as Herr.
  destruct (insertSingleContact client contact db) as [outcome db'].
  cbn [fst] in Herr.
  destruct (IH (db', countOutcome result contact outcome)) as [IH1 IH2].
  rewrite IH1, IH2. cbn [snd List.length]. unfold counted, countOutcome.
  rewrite Nat2Z.inj_succ.
  destruct (io_action outcome) eqn:Hact; cbn [inserted updated rejected errors];
    try lia.
  rewrite (Herr eq_refl), length_app. simpl. lia.
Qed.

(** When [BEGIN] and [COMMIT] always succeed, all the batches are run. *)
Lemma insertBatches_all (batches : list (list Contact)) :
  (forall d, fst (db_begin client d) = Ok tt) ->
  (forall d, fst (db_commit client d) = Ok tt) ->
  forall st : Db * InsertionResult,
    exists st',
      insertBatches client batches st = (Ok tt, st')
      /\ counted (snd st')
         = (counted (snd st) + Z.of_nat (List.length (List.concat batches)))%Z
      /\ (Z.of_nat (List.length (errors (snd st'))) - rejected (snd st')
          = Z.of_nat (List.length (errors (snd st))) - rejected (snd st))%Z.
Proof.
  intros Hbegin Hcommit.
  induction batches as [| batch batches IH]; intros [db result];
    cbn [insertBatches fst snd].
  - eexists. split; [reflexivity |]. simpl. lia.
  - pose proof (Hbegin db) as Hb.
    destruct (db_begin client db) as [rb db1]. simpl in Hb. subst rb.
    destruct (insertBatch_counts batch (db1, result)) as [Hc He].
    destruct (insertBatch client batch (db1, result)) as [db2 result2].
    cbn [snd] in Hc, He.
    pose proof (Hcommit db2) as Hcm.
    destruct (db_commit client db2) as [rc db3]. simpl in Hcm. subst rc.
    destruct (IH (db3, result2)) as [st' [Hrun [Hc' He']]].
    exists st'. split; [assumption |]. cbn [snd] in Hc', He'.
    simpl List.concat. rewrite length_app. lia.
Qed.

(** Whatever fails, a run over the batches counts no contact more than
    once and adds one error per rejection. *)
Lemma insertBatches_bound (batches : list (list Contact)) :
  forall st : Db * InsertionResult,
    (counted (snd (snd (insertBatches client batches st)))
     <= counted (snd st) + Z.of_nat (List.length (List.concat batches)))%Z
    /\ (Z.of_nat (List.length
                    (errors (snd (snd (insertBatches client batches st)))))
        - rejected (snd (snd (insertBatches client batches st)))
        = Z.of_nat (List.length (errors (snd st))) - rejected (snd st))%Z.
Proof.
  induction batches as [| batch batches IH]; intros [db result];
    cbn [insertBatches fst snd].
  - simpl. lia.
  - simpl List.concat. rewrite length_app.
    destruct (db_begin client db) as [[u | e] db1]; cbn [snd];
      [| lia].
    destruct (insertBatch_counts batch (db1, result)) as [Hc He].
    destruct (insertBatch client batch (db1, result)) as [db2 result2].
    cbn [snd] in Hc, He.
    destruct (db_commit client db2) as [[u' | e] db3].
    + destruct (IH (db3, result2)) as [IH1 IH2]. cbn [snd] in IH1, IH2. lia.
    + destruct (db_rollback client db3) as [[u' | e'] db4]; cbn [snd]; lia.
Qed.

Lemma insertOperation_bound (contacts : list Contact)
      (st : Db * InsertionResult) :
  (counted (snd (snd (insertOperation client contacts st)))
   <= counted (snd st) + Z.of_nat (List.length contacts))%Z
  /\ (Z.of_nat (List.length
                  (errors (snd (snd (insertOperation client contacts st)))))
      - rejected (snd (snd (insertOperation client contacts st)))
      = Z.of_nat (List.length (errors (snd st))) - rejected (snd st))%Z.
Proof.
  unfold insertOperation. destruct st as [db result]. cbn [fst snd].
  destruct (db_connect client db) as [[u | e] db1]; cbn [snd]; [| lia].
  pose proof (insertBatches_bound (makeBatches contacts) (db1, result)) as H.
  destruct (insertBatches client (makeBatches contacts) (db1, result))
    as [outcome st2].
  cbn [snd] in *.
  rewrite makeBatches_concat in H. exact H.
Qed.

End DatabaseFacts.

Lemma retryLoop_invariant (St T : Type) (operation : St -> Result T * St)
      (maxRetries : Z) (I : St -> Prop) :
  (forall st, I st -> I (snd (operation st))) ->
  forall remaining attempt lastError delays st,
    I st ->
    I (run_state (retryLoop operation maxRetries remaining attempt lastError
                            delays st)).
Proof.
  intro Hop. induction remaining as [| remaining IH];
    intros attempt lastError delays st Hst; [assumption |].
  rewrite retryLoop_step. specialize (Hop st Hst).
  destruct (operation st) as [[a | e] st']; cbn [snd] in Hop; [assumption |].
  destruct (attempt =? maxRetries)%Z; [assumption | now apply IH].
Qed.

Lemma retryLoop_defined (St T : Type) (operation : St -> Result T * St)
      (maxRetries : Z) :
  forall remaining attempt lastError delays st,
    (1 <= remaining)%nat \/ lastError <> None ->
    run_outcome (retryLoop operation maxRetries remaining attempt lastError
                           delays st) <> RejectedUndefined.
Proof.
  induction remaining as [| remaining IH];
    intros attempt lastError delays st H.
  - destruct H as [H | H]; [lia |]. simpl.
    destruct lastError; [discriminate | congruence].
  - rewrite retryLoop_step.
    destruct (operation st) as [[a | e] st']; [discriminate |].
    destruct (attempt =? maxRetries)%Z; [discriminate |].
    apply IH. right. discriminate.
Qed.

(** When the connection and every [BEGIN] and [COMMIT] succeed,
    [insertContacts] is done at the first attempt, without sleeping: every
    contact is counted exactly once, as inserted, updated or rejected, and
    there is one error message per rejected contact. *)
Theorem insertContacts_counts_every_contact (Db : Type) (client : DbClient Db)
        (contacts : list Contact) (db : Db) :
  fst (db_connect client db) = Ok tt ->
  (forall d, fst (db_begin client d) = Ok tt) ->
  (forall d, fst (db_commit client d) = Ok tt) ->
  exists res db',
    insertContacts client contacts db = (Ok res, [], db')
    /\ counted res = Z.of_nat (List.length contacts)
    /\ Z.of_nat (List.length (errors res)) = rejected res.
Proof.
  intros Hconnect Hbegin Hcommit. unfold insertContacts.
  destruct contacts as [| c0 cs] eqn:Hcontacts.
  - do 2 eexists. split; [reflexivity |]. split; reflexivity.
  - rewrite <- Hcontacts. clear Hcontacts c0 cs.
    assert (exists db2 res,
               insertOperation client contacts (db, emptyInsertion)
               = (Ok tt, (db2, res))
               /\ counted res = Z.of_nat (List.length contacts)
               /\ Z.of_nat (List.length (errors res)) = rejected res)
      as [db2 [res [Hop [Hc He]]]].
    { unfold insertOperation. cbn [fst snd].
      destruct (db_connect client db) as [rc db1]. simpl in Hconnect. subst rc.
      destruct (@insertBatches_all Db client (makeBatches contacts) Hbegin
                  Hcommit (db1, emptyInsertion)) as [[db2 res] [Hrun [Hc He]]].
      rewrite Hrun. cbn [fst snd] in *.
      exists (db_release client db2), res. split; [reflexivity |].
      rewrite makeBatches_concat in Hc.
      unfold counted in *. simpl in Hc, He. split; lia. }
    unfold withRetry. change (Z.to_nat 3) with 3%nat.
    rewrite retryLoop_step, Hop.
    cbn [fst snd run_outcome run_state run_delays].
    exists res, db2. auto.
Qed.

Lemma insertContacts_counts_every_contact_witness :
  fst (db_connect memoryDb ["jane.smith@dataflow.com"%string]) = Ok tt
  /\ (forall d, fst (db_begin memoryDb d) = Ok tt)
  /\ (forall d, fst (db_commit memoryDb d) = Ok tt)
  /\ exists res db',
      insertContacts memoryDb
                     [Fixtures.john; Fixtures.jane;
                      Fixtures.identified Fixtures.jane "" "" "" ""]
                     ["jane.smith@dataflow.com"%string]
      = (Ok res, [], db')
      /\ counted res
         = Z.of_nat (List.length
                       [Fixtures.john; Fixtures.jane;
                        Fixtures.identified Fixtures.jane "" "" "" ""])
      /\ Z.of_nat (List.length (errors res)) = rejected res.
Proof.
  split; [reflexivity |]. split; [reflexivity |]. split; [reflexivity |].
  apply (@insertContacts_counts_every_contact (list string) memoryDb
           [Fixtures.john; Fixtures.jane;
            Fixtures.identified Fixtures.jane "" "" "" ""]
           ["jane.smith@dataflow.com"%string]);
    reflexivity.
Defined.

(** One new contact, one known contact, one contact without email. *)
Example insertContacts_memoryDb :
  insertContacts memoryDb
                 [Fixtures.john; Fixtures.jane;
                  Fixtures.identified Fixtures.jane "" "" "" ""]
                 ["jane.smith@dataflow.com"%string]
  = (Ok {| inserted := 1; updated := 1; rejected := 1;
           errors := [": Missing required fields: email or name"%string] |},
     [],
     ["jane.smith@dataflow.com"; "john.doe@techcorp.com"]%string).
Proof. vm_compute. reflexivity. Qed.

(** [insertContacts] never rejects.  Its counters are not reset between the
    attempts of the retry, so what it reports can exceed the number of
    contacts, but by the three attempts it is at most three times that
    number; and it reports one error per rejection, plus at most one for
    the operation as a whole. *)
Theorem insertContacts_bounds (Db : Type) (client : DbClient Db)
        (contacts : list Contact) (db : Db) :
  exists res delays db',
    insertContacts client contacts db = (Ok res, delays, db')
    /\ (counted res <= 3 * Z.of_nat (List.length contacts))%Z
    /\ (rejected res <= Z.of_nat (List.length (errors res)) <= rejected res + 1)%Z.
Proof.
  unfold insertContacts.
  destruct contacts as [| c0 cs] eqn:Hcontacts.
  - do 3 eexists. split; [reflexivity |]. simpl. unfold counted. simpl. lia.
  - rewrite <- Hcontacts. clear Hcontacts c0 cs.
    unfold withRetry. change (Z.to_nat 3) with 3%nat.
    pose proof (@retryLoop_bound (Db * InsertionResult) unit
                  (insertOperation client contacts) 3
                  (fun st => counted (snd st))
                  (Z.of_nat (List.length contacts)) 3%nat
                  ltac:(lia)
                  (fun st => proj1 (insertOperation_bound client contacts st))
                  1%Z None [] (db, emptyInsertion)) as Hbound.
    pose proof (@retryLoop_invariant (Db * InsertionResult) unit
                  (insertOperation client contacts) 3
                  (fun st => (Z.of_nat (List.length (errors (snd st)))
                              - rejected (snd st) = 0)%Z)
                  (fun st H =>
                     eq_trans (proj2 (insertOperation_bound client contacts st)) H)
                  3%nat 1%Z None [] (db, emptyInsertion) eq_refl) as Hinv.
    assert ((1 <= 3)%nat \/ @None JsError <> None) as Hthree by (left; lia).
    pose proof (@retryLoop_defined (Db * InsertionResult) unit
                  (insertOperation client contacts) 3
                  3%nat 1%Z None [] (db, emptyInsertion) Hthree) as Hdef.
    clear Hthree.
    destruct (retryLoop (insertOperation client contacts) 3 3 1 None []
                        (db, emptyInsertion)) as [outcome delays [db' res]].
    cbn [run_outcome run_state run_delays fst snd] in *.
    unfold counted in *. simpl in Hbound.
    destruct outcome as [u | e |]; [| | congruence];
      do 3 eexists; (split; [reflexivity |]);
      cbn [inserted updated rejected errors]; try rewrite length_app;
      simpl; lia.
Qed.

(** Two contacts, a first attempt whose [COMMIT] fails and a second one that
    succeeds: both contacts are counted twice. *)
Example insertContacts_counts_again_after_retry :
  insertContacts flakyDb [Fixtures.john; Fixtures.jane] (0%nat, [])
  = (Ok {| inserted := 4; updated := 0; rejected := 0; errors := [] |},
     [1000%Z],
     (2%nat, ["john.doe@techcorp.com"; "jane.smith@dataflow.com"]%string)).
Proof. vm_compute. reflexivity. Qed.

(* ================================================================== *)
(** * Trimming a prompt to the context size                             *)
(* ================================================================== *)

Lemma substring_length (s : string) (n : nat) :
  String.length (substring 0 n s) = Nat.min n (String.length s).
Proof.
  revert n. induction s as [| c s IH]; intros [| n]; simpl; try reflexivity.
  now rewrite IH.
Qed.

Lemma sliceTo_length (s : string) (n : Z) :
  String.length (Providers.sliceTo s n)
  = Nat.min (Z.to_nat n) (String.length s).
Proof. apply substring_length. Qed.

Section TrimPromptFacts.

Variable tokens : string -> Z.
Variable chunks : Z -> string -> Result (list string).
Variable contextSize : Z.

(** The chunker honours its chunk size ... *)
Hypothesis chunks_fit :
  forall size text pieces,
    (Providers.MinChunkSize <= size)%Z ->
    chunks size text = Ok pieces ->
    Forall (fun piece => (Z.of_nat (String.length piece) <= size)%Z) pieces.

(** ... and is constructed for every chunk size [trimPrompt] asks for. *)
Hypothesis chunks_defined :
  forall size text,
    (Providers.MinChunkSize <= size)%Z ->
    exists pieces, chunks size text = Ok pieces.

Lemma trimPrompt_fuel_eq (fuel : nat) (prompt : string) :
  prompt <> EmptyString ->
  Providers.trimPrompt_fuel tokens chunks fuel prompt contextSize
  = if (tokens prompt <=? contextSize)%Z then Some (Ok prompt)
    else
      let chunkSize :=
        (Z.of_nat (String.length prompt)
         - (tokens prompt - contextSize) * 3)%Z in
      if (chunkSize <? Providers.MinChunkSize)%Z then
        Some (Ok (Providers.sliceTo prompt Providers.MinChunkSize))
      else
        match chunks chunkSize prompt with
        | Err e => Some (Err e)
        | Ok pieces =>
            let trimmedPrompt :=
              match pieces with
              | [] => EmptyString
              | first :: _ => first
              end in
            match fuel with
            | O => None
            | S fuel' =>
                if (String.length trimmedPrompt =? String.length prompt)%nat
                then Providers.trimPrompt_fuel tokens chunks fuel'
                       (Providers.sliceTo prompt chunkSize) contextSize
                else Providers.trimPrompt_fuel tokens chunks fuel'
                       trimmedPrompt contextSize
            end
        end.
Proof.
  intro Hne. destruct prompt; [congruence |]. destruct fuel; reflexivity.
Qed.

Lemma trimPrompt_fuel_settles (fuel : nat) :
  forall prompt,
    (String.length prompt <= fuel)%nat ->
    exists r,
      Providers.trimPrompt_fuel tokens chunks fuel prompt contextSize
      = Some (Ok r)
      /\ (String.length r <= String.length prompt)%nat
      /\ ((tokens r <= contextSize)%Z \/ (String.length r <= 140)%nat).
Proof.
  induction fuel as [| fuel IH]; intros prompt Hfuel.
  - destruct prompt; [| simpl in Hfuel; lia].
    exists EmptyString. simpl. repeat split; [lia | right; lia].
  - destruct (string_dec prompt EmptyString) as [-> | Hne].
    { exists EmptyString. simpl. repeat split; [lia | right; lia]. }
    rewrite trimPrompt_fuel_eq by assumption.
    destruct (tokens prompt <=? contextSize)%Z eqn:Hfits.
    { apply Z.leb_le in Hfits. exists prompt. repeat split; [lia | now left]. }
    apply Z.leb_gt in Hfits. cbv zeta.
    set (chunkSize := (Z.of_nat (String.length prompt)
                       - (tokens prompt - contextSize) * 3)%Z).
    assert (chunkSize < Z.of_nat (String.length prompt))%Z as Hsmaller
        by (unfold chunkSize; lia).
    destruct (chunkSize <? Providers.MinChunkSize)%Z eqn:Hmin.
    { exists (Providers.sliceTo prompt Providers.MinChunkSize).
      split; [reflexivity |]. rewrite sliceTo_length.
      unfold Providers.MinChunkSize. split; [lia | right; lia]. }
    apply Z.ltb_ge in Hmin.
    destruct (chunks_defined prompt Hmin) as [pieces Hpieces].
    rewrite Hpieces.
    pose proof (chunks_fit Hmin Hpieces) as Hfit.
    assert (forall next,
               (String.length next < String.length prompt)%nat ->
               exists r,
                 Providers.trimPrompt_fuel tokens chunks fuel next contextSize
                 = Some (Ok r)
                 /\ (String.length r <= String.length prompt)%nat
                 /\ ((tokens r <= contextSize)%Z \/ (String.length r <= 140)%nat))
      as Hnext.
    { intros next Hshort.
      destruct (IH next) as [r [Hr [Hlen Hgood]]]; [lia |].
      exists r. repeat split; [assumption | lia | assumption]. }
    destruct (String.length
                match pieces with [] => EmptyString | first :: _ => first end
              =? String.length prompt)%nat eqn:Hsame.
    + apply Hnext. rewrite sliceTo_length.
      unfold Providers.MinChunkSize in Hmin. lia.
    + apply Nat.eqb_neq in Hsame. apply Hnext.
      destruct pieces as [| first rest].
      * simpl in *. destruct prompt; [congruence | simpl; lia].
      * inversion Hfit as [| ? ? Hfirst _]; subst. lia.
Qed.

End TrimPromptFacts.

(** With a tokenizer of any kind and a chunker that honours its chunk size,
    [trimPrompt] terminates with a text that is never longer than the prompt
    and that either fits the context size or has at most 140 characters: the
    hard cut at [MinChunkSize] is returned without counting its tokens. *)
Theorem trimPrompt_settles (tokens : string -> Z)
        (chunks : Z -> string -> Result (list string))
        (prompt : string) (contextSize : Z) :
  (forall size text pieces,
      (Providers.MinChunkSize <= size)%Z ->
      chunks size text = Ok pieces ->
      Forall (fun piece => (Z.of_nat (String.length piece) <= size)%Z) pieces) ->
  (forall size text,
      (Providers.MinChunkSize <= size)%Z ->
      exists pieces, chunks size text = Ok pieces) ->
  exists r,
    Providers.trimPrompt tokens chunks prompt contextSize = Ok r
    /\ (String.length r <= String.length prompt)%nat
    /\ ((tokens r <= contextSize)%Z \/ (String.length r <= 140)%nat).
Proof.
  intros Hfit Hdef. unfold Providers.trimPrompt.
  destruct (@trimPrompt_fuel_settles tokens chunks contextSize Hfit Hdef
              (String.length prompt) prompt) as [r [Hr Hgood]]; [lia |].
  rewrite Hr. eauto.
Qed.

(** The chunker of this development honours its chunk size. *)
Lemma splitWith_fit (size : Z) (text : string) (pieces : list string) :
  (Providers.MinChunkSize <= size)%Z ->
  splitWith size text = Ok pieces ->
  Forall (fun piece => (Z.of_nat (String.length piece) <= size)%Z) pieces.
Proof.
  unfold Providers.MinChunkSize, splitWith. intros Hsize.
  destruct (newSplitter size 0) as [sp | e] eqn:Hsp; simpl; [| discriminate].
  apply newSplitter_Ok_inv in Hsp. destruct Hsp as [-> _].
  intro H. inversion H. clear H. apply Forall_forall. intros chunk.
  destruct text as [| c s]; [intros [] |].
  unfold splitText. cbv beta iota. simpl chunkSize. simpl chunkOverlap.
  destruct (Z.of_nat (String.length (String c s)) <=? size)%Z eqn:Hlen.
  - intros [<- | []]. now apply Z.leb_le.
  - intro Hin. apply in_map_iff in Hin. destruct Hin as [l [<- Hl]].
    rewrite length_string_of_list_ascii.
    pose proof (@splitText_packed_fit (Z.to_nat size) (Z.to_nat 0)
                  (list_ascii_of_string (String c s))) as Hfit.
    rewrite Forall_forall in Hfit. specialize (Hfit ltac:(lia) l Hl).
    simpl in Hfit. lia.
Qed.

Lemma splitWith_defined (size : Z) (text : string) :
  (Providers.MinChunkSize <= size)%Z ->
  exists pieces, splitWith size text = Ok pieces.
Proof.
  unfold Providers.MinChunkSize, splitWith. intro Hsize.
  unfold newSplitter.
  replace (0 >=? size)%Z with false; [simpl; eauto |].
  symmetry. rewrite Z.geb_leb. apply Z.leb_gt. lia.
Qed.

Lemma trimPrompt_settles_witness :
  (forall size text pieces,
      (Providers.MinChunkSize <= size)%Z ->
      splitWith size text = Ok pieces ->
      Forall (fun piece => (Z.of_nat (String.length piece) <= size)%Z) pieces)
  /\ (forall size text,
         (Providers.MinChunkSize <= size)%Z ->
         exists pieces, splitWith size text = Ok pieces)
  /\ exists r,
      Providers.trimPrompt (fun s => Z.of_nat (String.length s)) splitWith
                           "a prompt that is too long for its context" 10
      = Ok r
      /\ (String.length r
          <= String.length "a prompt that is too long for its context")%nat
      /\ ((Z.of_nat (String.length r) <= 10)%Z \/ (String.length r <= 140)%nat).
Proof.
  split; [exact splitWith_fit |]. split; [exact splitWith_defined |].
  apply (@trimPrompt_settles (fun s => Z.of_nat (String.length s)) splitWith
           "a prompt that is too long for its context"%string 10
           splitWith_fit splitWith_defined).
Defined.

(* ================================================================== *)
(** * Instances of the facts about failing branches                     *)
(* ================================================================== *)

Lemma failed_search_is_contained_witness :
  bypass Fixtures.worldTimeout = false
  /\ generateSerpQueries Fixtures.worldTimeout "topic" 2 []
     = Ok [Fixtures.queryOne; Fixtures.queryTwo]
  /\ In Fixtures.queryOne [Fixtures.queryOne; Fixtures.queryTwo]
  /\ dispatchedBranch Fixtures.worldTimeout 2 2 [] [] Fixtures.queryOne
     = Some (Ok emptyResult)
  /\ exists r,
      deepResearch Fixtures.worldTimeout "topic" 2 2 [] [] = Ok r
      /\ forall sq res,
          In sq [Fixtures.queryOne; Fixtures.queryTwo] ->
          dispatchedBranch Fixtures.worldTimeout 2 2 [] [] sq = Some (Ok res) ->
          incl (rr_learnings res) (rr_learnings r)
          /\ incl (rr_visitedUrls res) (rr_visitedUrls r).
Proof.
  split; [reflexivity |]. split; [reflexivity |]. split; [simpl; tauto |].
  apply (@failed_search_is_contained Fixtures.worldTimeout "topic"%string 2 2
           [] [] [Fixtures.queryOne; Fixtures.queryTwo] Fixtures.queryOne).
  - reflexivity.
  - reflexivity.
  - simpl. tauto.
  - left. eexists. reflexivity.
  - intros sq [<- | [<- | []]] Hne; [congruence |].
    eexists. vm_compute. reflexivity.
Defined.

Lemma deepResearch_depth_below_one_witness :
  (-3 <= 1)%Z
  /\ deepResearch Fixtures.worldSiblings "topic" 2 (-3) [] []
     = deepResearch Fixtures.worldSiblings "topic" 2 1 [] [].
Proof.
  split; [lia |].
  apply (@deepResearch_depth_below_one Fixtures.worldSiblings "topic"%string
           2 (-3) [] []).
  lia.
Defined.
